(** * mwc-cpu-miner: the start-up checks and the session loops of [main]

    A shallow embedding of [src/miner/main_cpu_miner.cpp]: the command-line
    parser (lines 52-97), the signal handler (lines 43-48) and the two nested
    loops of [main] (lines 127-202), run against an explicit environment that
    answers every call the program makes to the network object, the clocks,
    the random generator and the solver. *)

From Stdlib Require Import ZArith NArith Bool List String Ascii Lia PeanoNat.
From ExtLib Require Import Structures.Monad.
Import ListNotations.
Import MonadNotation.

Local Open Scope monad_scope.
Local Open Scope string_scope.
Local Open Scope list_scope.
Local Open Scope Z_scope.

(** ** Strings: the few [std::string] operations [main] uses *)

Module Str.

(** [value.find(c)]: position of the first occurrence, [None] for [npos]. *)
Fixpoint find (c : ascii) (s : string) : option nat :=
  match s with
  | EmptyString => None
  | String a r =>
      if Ascii.eqb a c then Some 0%nat
      else match find c r with
           | Some p => Some (S p)
           | None => None
           end
  end.

(** [value.substr(pos)] for [pos <= size]: the suffix from [pos]. *)
Fixpoint substr_from (pos : nat) (s : string) : string :=
  match pos, s with
  | O, _ => s
  | S p, String _ r => substr_from p r
  | S _, EmptyString => EmptyString
  end.

(** [value.substr(0, n)]: the first [n] characters. *)
Definition substr_to (n : nat) (s : string) : string := String.substring 0 n s.

Definition empty (s : string) : bool :=
  match s with EmptyString => true | _ => false end.

(** [isspace] in the C locale: space, and the controls 9 to 13. *)
Definition isspace (c : ascii) : bool :=
  let n := nat_of_ascii c in
  Nat.eqb n 32 || (Nat.leb 9 n && Nat.leb n 13).

Definition isdigit (c : ascii) : bool :=
  let n := nat_of_ascii c in Nat.leb 48 n && Nat.leb n 57.

Fixpoint skip_space (s : string) : string :=
  match s with
  | String a r => if isspace a then skip_space r else s
  | EmptyString => s
  end.

(** Value of the longest prefix of decimal digits, from accumulator [acc]. *)
Fixpoint read_digits (s : string) (acc : Z) : Z :=
  match s with
  | String a r =>
      if isdigit a
      then read_digits r (10 * acc + Z.of_nat (nat_of_ascii a - 48))
      else acc
  | EmptyString => acc
  end.

Inductive stoi_result : Type :=
| StoiValue (n : Z)
| StoiInvalidArgument
| StoiOutOfRange.

Definition INT_MIN : Z := - 2 ^ 31.
Definition INT_MAX : Z := 2 ^ 31 - 1.

(** [std::stoi(s)] (base 10): leading white space is skipped, one sign is
    accepted, then at least one digit must follow; what comes after the
    digits is ignored.  No digit: [std::invalid_argument]; a value that does
    not fit [int]: [std::out_of_range]. *)
Definition stoi (s : string) : stoi_result :=
  let s1 := skip_space s in
  let '(neg, s2) :=
    match s1 with
    | String "-" r => (true, r)
    | String "+" r => (false, r)
    | _ => (false, s1)
    end in
  match s2 with
  | String a _ =>
      if isdigit a then
        let v := read_digits s2 0 in
        let v' := if neg then - v else v in
        if (v' <? INT_MIN) || (INT_MAX <? v') then StoiOutOfRange
        else StoiValue v'
      else StoiInvalidArgument
  | EmptyString => StoiInvalidArgument
  end.

End Str.

(** ** Start-up: command-line parsing and validation (lines 52-97) *)

(** The five locals the parser fills (lines 57-61). *)
Record Args : Type := mkArgs {
  nodeHost : string;
  nodePort : Z;
  loginName : string;
  password : string;
  algo : string
}.

Definition args0 : Args := mkArgs "" (-1) "" "" "".

(** The lines [main] writes to [std::cerr] before [return 1]. *)
Inductive startup_error : Type :=
| ErrUsage (argv0 : string)
| ErrInvalidNode
| ErrUnknownArgument (key : string)
| ErrNodeUndefined
| ErrInvalidAlgorithm.

(** How a piece of the start-up code ends: it goes on with a value, it
    reports an error and [main] returns 1, or [std::stoi] throws and nothing
    catches the exception. *)
Inductive startup (A : Type) : Type :=
| Proceed (a : A)
| Exit1 (e : startup_error)
| Uncaught (r : Str.stoi_result).
Arguments Proceed {A} a.
Arguments Exit1 {A} e.
Arguments Uncaught {A} r.

(** One turn of the [for] loop body (lines 64-85). *)
Definition parse_pair (key value : string) (a : Args) : startup Args :=
  if String.eqb key "-node" then
    match Str.find ":" value with
    | None => Exit1 ErrInvalidNode
    | Some colonPos =>
        let host := Str.substr_to colonPos value in
        match Str.stoi (Str.substr_from (colonPos + 1) value) with
        | Str.StoiValue p =>
            Proceed (mkArgs host p (loginName a) (password a) (algo a))
        | r => Uncaught r
        end
    end
  else if String.eqb key "-login" then
    Proceed (mkArgs (nodeHost a) (nodePort a) value (password a) (algo a))
  else if String.eqb key "-pass" then
    Proceed (mkArgs (nodeHost a) (nodePort a) (loginName a) value (algo a))
  else if String.eqb key "-algo" then
    Proceed (mkArgs (nodeHost a) (nodePort a) (loginName a) (password a) value)
  else Exit1 (ErrUnknownArgument key).

(** [for (int i = 2; i < argc; i += 2)]: [turns] bounds the number of turns
    of the loop; [List.length argv] turns are always enough. *)
Fixpoint parse_loop (turns : nat) (i : nat) (argv : list string) (a : Args)
  : startup Args :=
  match turns with
  | O => Proceed a
  | S turns' =>
      if Nat.ltb i (List.length argv) then
        let key := nth (i - 1) argv "" in
        let value := nth i argv "" in
        match parse_pair key value a with
        | Proceed a' => parse_loop turns' (i + 2) argv a'
        | Exit1 e => Exit1 e
        | Uncaught r => Uncaught r
        end
      else Proceed a
  end.

(** Lines 52-97: the argument count, the loop, then the two validations. *)
Definition parse_args (argv : list string) : startup Args :=
  if Nat.ltb (List.length argv) 7 then Exit1 (ErrUsage (nth 0 argv ""))
  else
    match parse_loop (List.length argv) 2 argv args0 with
    | Proceed a =>
        if (nodePort a =? -1) || Str.empty (nodeHost a)
        then Exit1 ErrNodeUndefined
        else if negb (String.eqb (algo a) "C31") && negb (String.eqb (algo a) "C32")
        then Exit1 ErrInvalidAlgorithm
        else Proceed a
    | Exit1 e => Exit1 e
    | Uncaught r => Uncaught r
    end.

(** The key/value pairs the loop examines: the tokens after the program
    name taken two by two; a last token without a partner is in no pair. *)
Fixpoint pairs (toks : list string) : list (string * string) :=
  match toks with
  | key :: value :: rest => (key, value) :: pairs rest
  | _ => []
  end.

(** The loop told on the list of tokens after the program name. *)
Fixpoint parse_tokens (toks : list string) (a : Args) : startup Args :=
  match toks with
  | key :: value :: rest =>
      match parse_pair key value a with
      | Proceed a' => parse_tokens rest a'
      | Exit1 e => Exit1 e
      | Uncaught r => Uncaught r
      end
  | _ => Proceed a
  end.

(** *** Malformed start-up parameters, in the words of the specification

    Fewer than the required arguments; a [-node] value without a colon; an
    unknown argument key; a missing host or port; an algorithm other than
    C31 or C32.  Keys and values are those of the examined pairs, and the
    value that counts for a key given twice is the last. *)

Definition known_key (key : string) : bool :=
  String.eqb key "-node" || String.eqb key "-login" ||
  String.eqb key "-pass" || String.eqb key "-algo".

Fixpoint last_value (key : string) (ps : list (string * string))
  : option string :=
  match ps with
  | [] => None
  | (k, v) :: ps' =>
      match last_value key ps' with
      | Some x => Some x
      | None => if String.eqb k key then Some v else None
      end
  end.

Definition has_colon (value : string) : bool :=
  match Str.find ":" value with Some _ => true | None => false end.

Definition host_part (value : string) : string :=
  match Str.find ":" value with
  | Some colonPos => Str.substr_to colonPos value
  | None => ""
  end.

Definition port_part (value : string) : string :=
  match Str.find ":" value with
  | Some colonPos => Str.substr_from (colonPos + 1) value
  | None => ""
  end.

Definition too_few (argv : list string) : bool :=
  Nat.ltb (List.length argv) 7.

Definition node_without_colon (ps : list (string * string)) : bool :=
  existsb (fun kv => String.eqb (fst kv) "-node" && negb (has_colon (snd kv))) ps.

Definition unknown_key (ps : list (string * string)) : bool :=
  existsb (fun kv => negb (known_key (fst kv))) ps.

Definition host_or_port_missing (ps : list (string * string)) : bool :=
  match last_value "-node" ps with
  | None => true
  | Some v => Str.empty (host_part v) || Str.empty (port_part v)
  end.

Definition bad_algorithm (ps : list (string * string)) : bool :=
  match last_value "-algo" ps with
  | None => true
  | Some v => negb (String.eqb v "C31") && negb (String.eqb v "C32")
  end.

Definition malformed (argv : list string) : bool :=
  let ps := pairs (tl argv) in
  too_few argv || node_without_colon ps || unknown_key ps ||
  host_or_port_missing ps || bad_algorithm ps.

(** ** The session: data, environment and events *)

(** Modelled from the spec: the class [CuckaJob] is declared in
    [miner_network.h], which is not among the sources.  [main] reads
    [jobId], [height] and [difficulty], and calls [is_valid()] and
    [calculate_seed_hash]; the spec lists a job as id, height, difficulty,
    seed material and a validity flag. *)
Record CuckaJob : Type := mkJob {
  jobId : Z;
  height : Z;
  difficulty : Z;
  pre_pow : string;
  valid : bool
}.

Definition is_valid (j : CuckaJob) : bool := valid j.

(** Modelled from the spec: the four requests [MinerNetwork] puts on its
    FIFO outbound queue ([sendLoginMessage], [sendKeepAliveRequest],
    [sendGetJobRequest], [sendResponseRequest]); each carries the arguments
    [main] passes. *)
Inductive request : Type :=
| Login (name pass : string) (flag : bool)
| KeepAlive
| GetJob
| Submit (edge_bits : Z) (job : CuckaJob) (nonce : Z) (res_nonces : list Z).

(** The lines [main] writes to [std::cout] (the wall-clock prefix of the
    job line is console formatting and is left out). *)
Inductive log_line : Type :=
| LogNode (host : string) (port : Z)
| LogLogin (name : string)
| LogAlgorithm (a : string)
| LogConnecting
| LogUnableConnect
| LogJobPoolEmpty
| LogStartingJob (job : CuckaJob) (nonce : Z)
| LogFound (solutions : nat) (hash : list Z).

(** What the main thread does to the outside, in program order.
    [EvConnect] carries the steady-clock time of the call.  [EvEnqueue]
    carries the clock value the caller holds for the request: the iteration's
    [now] for the requests of the inner loop (the value the loop stores in
    its [last_..._request_time]), the time of the call for the login. *)
Inductive event : Type :=
| EvError (e : startup_error)
| EvLog (l : log_line)
| EvSignalInstall
| EvConnect (t : Z) (host : string) (port : Z) (ok : bool)
| EvStartReader
| EvStartWriter
| EvEnqueue (issued : Z) (r : request)
| EvGetActiveJob (job : CuckaJob)
| EvNonce (nonce : Z)
| EvSetHash (v : list Z)
| EvBuildGraph (found : nat)
| EvSleep (d : Z)
| EvStopRunning
| EvJoinReader
| EvJoinWriter
| EvDeleteSolver.

(** The solver and the hash are outside collaborators: a candidate type
    and three functions, [CuckaJob::calculate_seed_hash],
    [Solver::build_graph] (on the hash given to [set_hash]) and
    [Solver::resolve_found_to_nonces], which returns the hash and fills
    [res_nonces]. *)
Record Solver : Type := mkSolver {
  CycleSolution : Type;
  calculate_seed_hash : CuckaJob -> Z -> list Z;
  build_graph : list Z -> list CycleSolution;
  resolve_found_to_nonces : list Z -> list CycleSolution -> list Z * list Z
}.

(** The environment answers the calls of the main thread; the [k]-th call
    (counted from 0 over the whole run) gets the [k]-th answer.  While
    call [k] is under way, [env_delay k] nanoseconds pass on the steady
    clock and, if [env_sigint k], a SIGINT is delivered. *)
Record Env : Type := mkEnv {
  env_delay : nat -> N;
  env_sigint : nat -> bool;
  env_connect : nat -> bool;
  env_running : nat -> bool;
  env_job : nat -> CuckaJob;
  env_nonce : nat -> Z;
  env_solver : Solver
}.

(** The state [main] shares with the outside: the steady clock (in
    nanoseconds), the number of calls made, the global [exiting], the hash
    held by the solver, and what the signal handler has printed. *)
Record World : Type := mkWorld {
  clock : Z;
  calls : nat;
  exiting : bool;
  solver_hash : list Z;
  handler_out : list string
}.

Definition SIGINT : Z := 2.

(** Lines 43-48. *)
Definition signal_handler (signal : Z) (w : World) : World :=
  if signal =? SIGINT then
    mkWorld (clock w) (calls w) true (solver_hash w)
            (handler_out w ++ ["Exiting the miner, please wait..."])
  else w.

(** The world after a sleep of [d], and after the solver is given [v]. *)
Definition asleep (d : Z) (w : World) : World :=
  mkWorld (clock w + d) (calls w) (exiting w) (solver_hash w) (handler_out w).

Definition with_hash (v : list Z) (w : World) : World :=
  mkWorld (clock w) (calls w) (exiting w) v (handler_out w).

Definition seconds (n : Z) : Z := n * 1000000000.
Definition milliseconds (n : Z) : Z := n * 1000000.

(** ** Programs: state passing over [World], with the events emitted *)

Definition Prog (A : Type) : Type := World -> A * World * list event.

#[export] Instance Monad_Prog : Monad Prog := {
  ret := fun _ a w => (a, w, []);
  bind := fun _ _ c k w =>
    let '(a, w1, t1) := c w in
    let '(b, w2, t2) := k a w1 in
    (b, w2, t1 ++ t2)
}.

Definition emit (e : event) : Prog unit := fun w => (tt, w, [e]).

(** [exiting] is an atomic the main thread only loads. *)
Definition load_exiting : Prog bool := fun w => (exiting w, w, []).

Definition load_clock : Prog Z := fun w => (clock w, w, []).

(** The two last-request times of the inner loop (lines 141-142). *)
Record Timers : Type := mkTimers {
  last_get_job_request_time : Z;
  last_keep_alive_request_time : Z
}.

(** How a loop of the model ends: it left the loop, or the bound on its
    turns ran out first. *)
Inductive loop_end : Type :=
| Left_loop
| Out_of_turns.

(** How [main] ends. *)
Inductive outcome : Type :=
| Returned (code : Z)
| Terminated (r : Str.stoi_result)
| Unfinished.

Definition UINT64_MAX : Z := 2 ^ 64 - 1.

Section Miner.

Variable env : Env.

(** One call to the outside: time passes, a pending SIGINT runs the
    handler, and the call gets its number. *)
Definition tick (w : World) : World :=
  let k := calls w in
  let w1 := if env_sigint env k then signal_handler SIGINT w else w in
  mkWorld (clock w1 + Z.of_N (env_delay env k)) (S k) (exiting w1)
          (solver_hash w1) (handler_out w1).

Definition call : Prog nat := fun w => (calls w, tick w, []).

Definition log (l : log_line) : Prog unit :=
  _ <- call ;; emit (EvLog l).

Definition steady_now : Prog Z :=
  _ <- call ;; load_clock.

(** [std::this_thread::sleep_for(d)]: at least [d] passes. *)
Definition sleep_for (d : Z) : Prog unit :=
  _ <- call ;;
  (fun w => (tt, asleep d w, [EvSleep d])).

Definition network_connect (host : string) (port : Z) : Prog bool :=
  k <- call ;;
  t <- load_clock ;;
  emit (EvConnect t host port (env_connect env k)) ;;
  ret (env_connect env k).

Definition network_is_running : Prog bool :=
  k <- call ;; ret (env_running env k).

Definition network_getActiveJob : Prog CuckaJob :=
  k <- call ;;
  emit (EvGetActiveJob (env_job env k)) ;;
  ret (env_job env k).

(** Modelled from the spec: the send functions of [MinerNetwork]
    ([miner_network.h] is not among the sources) put one request on the
    outbound queue and return.  [issued] is not an argument of the C++
    call: it records the clock value the caller holds. *)
Definition network_send (issued : Z) (r : request) : Prog unit :=
  _ <- call ;; emit (EvEnqueue issued r).

Definition network_sendKeepAliveRequest (now : Z) : Prog unit :=
  network_send now KeepAlive.

Definition network_sendGetJobRequest (now : Z) : Prog unit :=
  network_send now GetJob.

Definition network_sendResponseRequest (now : Z) (edge_bits : Z)
  (job : CuckaJob) (nonce : Z) (res_nonces : list Z) : Prog unit :=
  network_send now (Submit edge_bits job nonce res_nonces).

Definition network_sendLoginMessage (name pass : string) (flag : bool)
  : Prog unit :=
  _ <- call ;; t <- load_clock ;; emit (EvEnqueue t (Login name pass flag)).

Definition network_stop_running : Prog unit :=
  _ <- call ;; emit EvStopRunning.

(** A call whose result the loops do not use: starting or joining a
    thread, deleting the solver. *)
Definition perform (e : event) : Prog unit :=
  _ <- call ;; emit e.

(** [uint64_dist(nonce_gen)]: a value of [0 .. UINT64_MAX]. *)
Definition draw_nonce : Prog Z :=
  k <- call ;;
  let n := env_nonce env k mod (UINT64_MAX + 1) in
  emit (EvNonce n) ;; ret n.

Definition solver_set_hash (v : list Z) : Prog unit :=
  _ <- call ;;
  (fun w => (tt, with_hash v w, [EvSetHash v])).

Definition solver_build_graph : Prog (list (CycleSolution (env_solver env))) :=
  _ <- call ;;
  (fun w => let res := build_graph (env_solver env) (solver_hash w) in
            (res, w, [EvBuildGraph (List.length res)])).

Definition load_solver_hash : Prog (list Z) := fun w => (solver_hash w, w, []).

Definition is_empty {A : Type} (l : list A) : bool :=
  match l with [] => true | _ => false end.

(** The body of the inner loop (lines 145-189); [edge_bits] is the value
    chosen at lines 105-116. *)
Definition iteration (edge_bits : Z) (tm : Timers) : Prog Timers :=
  now <- steady_now ;;
  tm1 <- (if now - last_keep_alive_request_time tm >? seconds 20 then
            network_sendKeepAliveRequest now ;;
            ret (mkTimers (last_get_job_request_time tm) now)
          else ret tm) ;;
  currentTask <- network_getActiveJob ;;
  if negb (is_valid currentTask) then
    tm2 <- (if now - last_get_job_request_time tm1 >? seconds 5 then
              log LogJobPoolEmpty ;;
              network_sendGetJobRequest now ;;
              ret (mkTimers now (last_keep_alive_request_time tm1))
            else ret tm1) ;;
    sleep_for (milliseconds 100) ;;
    ret tm2
  else
    nonce <- draw_nonce ;;
    log (LogStartingJob currentTask nonce) ;;
    solver_set_hash (calculate_seed_hash (env_solver env) currentTask nonce) ;;
    res_graphs <- solver_build_graph ;;
    (if negb (is_empty res_graphs) then
       h <- load_solver_hash ;;
       let found := resolve_found_to_nonces (env_solver env) h res_graphs in
       let hash := fst found in
       let res_nonces := snd found in
       log (LogFound (List.length res_graphs) hash) ;;
       network_sendResponseRequest now edge_bits currentTask nonce res_nonces
     else ret tt) ;;
    ret tm1.

(** [while (network.is_running() && !exiting) { ... }] (line 144), at most
    [turns] evaluations of the condition. *)
Fixpoint orchestrator (turns : nat) (edge_bits : Z) (tm : Timers)
  : Prog loop_end :=
  match turns with
  | O => ret Out_of_turns
  | S turns' =>
      running <- network_is_running ;;
      ex <- (if running then load_exiting else ret true) ;;
      if running && negb ex then
        tm' <- iteration edge_bits tm ;;
        orchestrator turns' edge_bits tm'
      else ret Left_loop
  end.

(** Lines 192-196: the end of an epoch. *)
Definition teardown : Prog unit :=
  network_stop_running ;; perform EvJoinReader ;; perform EvJoinWriter.

(** Lines 199-202. *)
Definition shutdown : Prog outcome :=
  perform EvDeleteSolver ;; ret (Returned 0).

Section Supervisor.

Variable a : Args.
Variable edge_bits : Z.
Variable turns : nat.

(** The inner loop and the end of the epoch (lines 144-196). *)
Definition from_loop (tm : Timers) : Prog loop_end :=
  e <- orchestrator turns edge_bits tm ;;
  match e with
  | Out_of_turns => ret Out_of_turns
  | Left_loop => teardown ;; ret Left_loop
  end.

(** The body of the outer loop (lines 128-196); both the [continue] of
    line 132 and the end of the body lead back to the outer condition. *)
Definition epoch : Prog loop_end :=
  log LogConnecting ;;
  ok <- network_connect (nodeHost a) (nodePort a) ;;
  if negb ok then
    log LogUnableConnect ;;
    sleep_for (seconds 30) ;;
    ret Left_loop
  else
    perform EvStartReader ;;
    perform EvStartWriter ;;
    network_sendLoginMessage (loginName a) (password a) true ;;
    t0 <- steady_now ;;
    from_loop (mkTimers t0 t0).

(** After a body of the outer loop: on to [again], the next evaluation of
    the outer condition, unless the bound on the inner loop ran out. *)
Definition and_then (e : loop_end) (again : Prog outcome) : Prog outcome :=
  match e with
  | Out_of_turns => ret Unfinished
  | Left_loop => again
  end.

(** [while (!exiting) { ... }] (line 127) and what follows it, at most
    [epochs] evaluations of the condition, each epoch with at most [turns]
    evaluations of the inner condition. *)
Fixpoint supervisor (epochs : nat) : Prog outcome :=
  match epochs with
  | O => ret Unfinished
  | S epochs' =>
      ex <- load_exiting ;;
      if ex then shutdown
      else e <- epoch ;; and_then e (supervisor epochs')
  end.

(** The run from inside an epoch, at the condition of the inner loop. *)
Definition resume (epochs : nat) (tm : Timers) : Prog outcome :=
  e <- from_loop tm ;; and_then e (supervisor epochs).

End Supervisor.

(** Lines 99-116: the three start-up lines, the handler, the solver. *)
Definition edge_bits_of (algo : string) : Z :=
  if String.eqb algo "C31" then 31 else 32.

Definition miner (a : Args) (epochs turns : nat) : Prog outcome :=
  emit (EvLog (LogNode (nodeHost a) (nodePort a))) ;;
  emit (EvLog (LogLogin (loginName a))) ;;
  emit (EvLog (LogAlgorithm (algo a))) ;;
  emit EvSignalInstall ;;
  supervisor a (edge_bits_of (algo a)) turns epochs.

(** [main]: the whole program from [argv] and the start state. *)
Definition main (argv : list string) (epochs turns : nat) : Prog outcome :=
  match parse_args argv with
  | Exit1 e => emit (EvError e) ;; ret (Returned 1)
  | Uncaught r => ret (Terminated r)
  | Proceed a => miner a epochs turns
  end.

End Miner.

Definition world0 : World := mkWorld 0 0 false [] [].

(** ** Observers of a run *)

Definition value {A : Type} (x : A * World * list event) : A := fst (fst x).
Definition after {A : Type} (x : A * World * list event) : World := snd (fst x).
Definition events {A : Type} (x : A * World * list event) : list event := snd x.

(** The outbound queue, in the order of the calls. *)
Definition requests (tr : list event) : list request :=
  flat_map (fun e => match e with EvEnqueue _ r => [r] | _ => [] end) tr.

Definition is_login (r : request) : bool :=
  match r with Login _ _ _ => true | _ => false end.
Definition is_keep_alive (r : request) : bool :=
  match r with KeepAlive => true | _ => false end.
Definition is_get_job (r : request) : bool :=
  match r with GetJob => true | _ => false end.
Definition is_submit (r : request) : bool :=
  match r with Submit _ _ _ _ => true | _ => false end.

(** The clock values of the enqueued requests of one kind. *)
Definition issued (kind : request -> bool) (tr : list event) : list Z :=
  flat_map (fun e => match e with
                     | EvEnqueue t r => if kind r then [t] else []
                     | _ => []
                     end) tr.

Definition submissions (tr : list event) : list request :=
  filter is_submit (requests tr).

(** The connect attempts: time of the call and result. *)
Definition connects (tr : list event) : list (Z * bool) :=
  flat_map (fun e => match e with EvConnect t _ _ ok => [(t, ok)] | _ => [] end) tr.

(** What an attempt reads and hands to the solver. *)
Definition jobs_read (tr : list event) : list CuckaJob :=
  flat_map (fun e => match e with EvGetActiveJob j => [j] | _ => [] end) tr.
Definition nonces_drawn (tr : list event) : list Z :=
  flat_map (fun e => match e with EvNonce n => [n] | _ => [] end) tr.
Definition hashes_set (tr : list event) : list (list Z) :=
  flat_map (fun e => match e with EvSetHash v => [v] | _ => [] end) tr.
Definition graphs_built (tr : list event) : list nat :=
  flat_map (fun e => match e with EvBuildGraph n => [n] | _ => [] end) tr.

(** Every time of [l] is more than [gap] after the one before it, the first
    more than [gap] after [last]. *)
Fixpoint spaced (gap last : Z) (l : list Z) : Prop :=
  match l with
  | [] => True
  | t :: l' => t - last > gap /\ spaced gap t l'
  end.

(** Every failed connect attempt of [l] is followed by no attempt sooner
    than [gap] after it. *)
Fixpoint backed_off (gap : Z) (l : list (Z * bool)) : Prop :=
  match l with
  | [] => True
  | (t, ok) :: l' =>
      (ok = false -> Forall (fun c => t + gap <= fst c) l') /\
      backed_off gap l'
  end.

(** [w'] is a later state of the run than [w]: the clock and the number of
    calls have not gone back, [exiting] once set stays set, it is unchanged
    if no SIGINT came with the calls in between, and a SIGINT that comes
    with a call [k] not yet made at [w] has set it once call [k] is made. *)
Definition evolves (env : Env) (w w' : World) : Prop :=
  clock w <= clock w' /\
  (calls w <= calls w')%nat /\
  (exiting w = true -> exiting w' = true) /\
  ((forall j, (calls w <= j < calls w')%nat -> env_sigint env j = false) ->
   exiting w' = exiting w) /\
  (forall k, (calls w <= k)%nat -> env_sigint env k = true ->
             exiting w' = true \/ (calls w' <= k)%nat).

(** Cancellation has fired or is about to: [exiting] is set at [w], or a
    SIGINT comes with call [k], which is not yet made at [w]. *)
Definition cancelled_by (env : Env) (k : nat) (w : World) : Prop :=
  exiting w = true \/ ((calls w <= k)%nat /\ env_sigint env k = true).

(** ** Concrete jobs, solvers and environments for the examples *)

Definition no_job : CuckaJob := mkJob 0 0 0 "" false.

Definition job7 : CuckaJob := mkJob 7 100 1 "seed" true.

(** A solver that never finds a cycle, and one that always finds one. *)
Definition barren_solver : Solver :=
  mkSolver unit (fun j n => [jobId j; n; 0; 0]) (fun _ => [])
           (fun _ _ => ([], [])).

Definition lucky_solver : Solver :=
  mkSolver (list Z) (fun j n => [jobId j; n; 0; 0]) (fun h => [h])
           (fun _ res => ([171], List.concat res)).

(** An environment where every call returns at once, no signal arrives, the
    node accepts the connection and keeps it, and announces [job]. *)
Definition steady_env (job : CuckaJob) (s : Solver) : Env :=
  mkEnv (fun _ => 0%N) (fun _ => false) (fun _ => true) (fun _ => true)
        (fun _ => job) (fun _ => 12345) s.

Definition idle_env : Env := steady_env no_job barren_solver.
Definition lucky_env : Env := steady_env job7 lucky_solver.
Definition barren_env : Env := steady_env job7 barren_solver.

(** The node refuses every connection. *)
Definition dead_env : Env :=
  mkEnv (fun _ => 0%N) (fun _ => false) (fun _ => false) (fun _ => true)
        (fun _ => no_job) (fun _ => 12345) barren_solver.

(** The transport has failed: [is_running()] answers false. *)
Definition dropped_env : Env :=
  mkEnv (fun _ => 0%N) (fun _ => false) (fun _ => true) (fun _ => false)
        (fun _ => no_job) (fun _ => 12345) barren_solver.

(** The transport fails during the first turn of the inner loop: call 0,
    the first [is_running()], answers true, the later ones false. *)
Definition dropping_env : Env :=
  mkEnv (fun _ => 0%N) (fun _ => false) (fun _ => true) (fun k => Nat.eqb k 0)
        (fun _ => no_job) (fun _ => 12345) barren_solver.

(** A SIGINT arrives with call 5. *)
Definition interrupted_env : Env :=
  mkEnv (fun _ => 0%N) (fun k => Nat.eqb k 5) (fun _ => true) (fun _ => true)
        (fun _ => no_job) (fun _ => 12345) barren_solver.

(** A world whose steady clock reads [t]. *)
Definition world_at (t : Z) : World := mkWorld t 0 false [] [].

Definition args_ok : Args := mkArgs "127.0.0.1" 3416 "alice" "" "C31".

Definition argv_ok : list string :=
  ["miner"; "-node"; "127.0.0.1:3416"; "-login"; "alice"; "-algo"; "C31"].

(** A well-formed command line followed by one more token. *)
Definition argv_trailing : list string := argv_ok ++ ["-bogus"].

(** ** Command lines the parser accepts, and further observers *)

(** A [-node] value the loop gets through: it has a colon, and the text
    after the first colon converts to an [int]. *)
Definition node_accepted (value : string) : bool :=
  match Str.find ":" value with
  | Some colonPos =>
      match Str.stoi (Str.substr_from (colonPos + 1) value) with
      | Str.StoiValue _ => true
      | _ => false
      end
  | None => false
  end.

Definition pair_accepted (kv : string * string) : bool :=
  known_key (fst kv) &&
  (if String.eqb (fst kv) "-node" then node_accepted (snd kv) else true).

(** The last [-node] value gives a host and a port other than -1. *)
Definition node_defined (ps : list (string * string)) : bool :=
  match last_value "-node" ps with
  | Some v =>
      negb (Str.empty (host_part v)) &&
      match Str.stoi (port_part v) with
      | Str.StoiValue p => negb (p =? -1)
      | _ => false
      end
  | None => false
  end.

Definition algo_supported (ps : list (string * string)) : bool :=
  match last_value "-algo" ps with
  | Some v => String.eqb v "C31" || String.eqb v "C32"
  | None => false
  end.

Definition well_formed (argv : list string) : bool :=
  let ps := pairs (tl argv) in
  negb (too_few argv) && forallb pair_accepted ps &&
  node_defined ps && algo_supported ps.

(** The value of a key, [""] when the key is not given. *)
Definition value_or_empty (key : string) (ps : list (string * string))
  : string :=
  match last_value key ps with Some v => v | None => "" end.

Fixpoint all_digits (s : string) : bool :=
  match s with
  | EmptyString => true
  | String c r => Str.isdigit c && all_digits r
  end.

Definition count (p : event -> bool) (tr : list event) : nat :=
  List.length (filter p tr).

Definition is_start_reader (e : event) : bool :=
  match e with EvStartReader => true | _ => false end.
Definition is_start_writer (e : event) : bool :=
  match e with EvStartWriter => true | _ => false end.
Definition is_join_reader (e : event) : bool :=
  match e with EvJoinReader => true | _ => false end.
Definition is_join_writer (e : event) : bool :=
  match e with EvJoinWriter => true | _ => false end.
Definition is_stop_running (e : event) : bool :=
  match e with EvStopRunning => true | _ => false end.
Definition is_login_sent (e : event) : bool :=
  match e with EvEnqueue _ (Login _ _ _) => true | _ => false end.
Definition is_connected (e : event) : bool :=
  match e with EvConnect _ _ _ true => true | _ => false end.
Definition is_delete_solver (e : event) : bool :=
  match e with EvDeleteSolver => true | _ => false end.

(** The events of the outer loop: everything but what a body of the inner
    loop does. *)
Definition session_event (e : event) : bool :=
  match e with
  | EvConnect _ _ _ _ | EvStartReader | EvStartWriter | EvStopRunning
  | EvJoinReader | EvJoinWriter | EvDeleteSolver
  | EvEnqueue _ (Login _ _ _) => true
  | _ => false
  end.

(** The sleeps of a run. *)
Definition sleeps (tr : list event) : list Z :=
  flat_map (fun e => match e with EvSleep d => [d] | _ => [] end) tr.

(** The nonce an event carries, if any, is a [uint64_t]. *)
Definition nonce_in_range (e : event) : Prop :=
  match e with
  | EvNonce n => 0 <= n <= UINT64_MAX
  | EvLog (LogStartingJob _ n) => 0 <= n <= UINT64_MAX
  | EvEnqueue _ (Submit _ _ n _) => 0 <= n <= UINT64_MAX
  | _ => True
  end.

(** A submission carries the edge bits of the algorithm [a]. *)
Definition edge_bits_match (a : string) (e : event) : Prop :=
  match e with
  | EvEnqueue _ (Submit eb _ _ _) =>
      (a = "C31" /\ eb = 31) \/ (a = "C32" /\ eb = 32)
  | _ => True
  end.

(** A job that changes with every call: the id is the number of the call. *)
Definition job_of_call (k : nat) : CuckaJob :=
  mkJob (Z.of_nat k) 100 1 "seed" true.

(** The node announces a new job with every call and the solver finds a
    cycle every time; each call takes 1 ms. *)
Definition busy_env : Env :=
  mkEnv (fun _ => 1000000%N) (fun _ => false) (fun _ => true) (fun _ => true)
        job_of_call (fun k => Z.of_nat k - 3) lucky_solver.

(** [c] connections made and [m] sessions ended in a run: each connection
    with its reader, its writer and its login, each end with its two
    joins. *)
Definition tally (tr : list event) (c m : nat) : Prop :=
  count is_connected tr = c /\
  count is_start_reader tr = c /\
  count is_start_writer tr = c /\
  count is_login_sent tr = c /\
  count is_stop_running tr = m /\
  count is_join_reader tr = m /\
  count is_join_writer tr = m.

(** A connect goes to the node of the parameters [a], and a login carries
    their name and password. *)
Definition uses_parameters (a : Args) (e : event) : Prop :=
  match e with
  | EvConnect _ host port _ => host = nodeHost a /\ port = nodePort a
  | EvEnqueue _ (Login name pass flag) =>
      name = loginName a /\ pass = password a /\ flag = true
  | _ => True
  end.

(** ** The times at which requests fall due *)



(** The world in which the inner loop of an epoch starts: after the six
    calls of lines 128-141, the last of them the clock reading that both
    timers are set to. *)
Definition loop_start (env : Env) (w : World) : World :=
  tick env (tick env (tick env (tick env (tick env (tick env w))))).

(** The solver takes ten minutes ([build_graph] is call 6 of the loop
    started in [world0]) and the transport fails right after the first
    [is_running()]. *)
Definition slow_env : Env :=
  mkEnv (fun k => if Nat.eqb k 6 then 600000000000%N else 0%N)
        (fun _ => false) (fun _ => true) (fun k => Nat.eqb k 0)
        (fun _ => job7) (fun _ => 12345) lucky_solver.

(** * Properties *)

Arguments tick : simpl never.
Arguments asleep : simpl never.
Arguments with_hash : simpl never.
Arguments seconds : simpl never.
Arguments milliseconds : simpl never.
Arguments Z.mul : simpl never.
Arguments Z.modulo : simpl never.
Arguments Z.pow : simpl never.
Arguments iteration : simpl never.
Arguments from_loop : simpl never.
Arguments epoch : simpl never.

(** Runs a program of the model through its branches. *)
Ltac run_cases :=
  cbn;
  repeat match goal with
         | |- context [if ?b then _ else _] => destruct b eqn:?; cbn
         end.

Section Observers.

Lemma events_mk {A : Type} (a : A) w t : events (a, w, t) = t.
Proof. reflexivity. Qed.

Lemma value_mk {A : Type} (a : A) w t : value (a, w, t) = a.
Proof. reflexivity. Qed.

Lemma after_mk {A : Type} (a : A) w t : after (a, w, t) = w.
Proof. reflexivity. Qed.

Lemma issued_app kind (t1 t2 : list event) :
  issued kind (t1 ++ t2) = issued kind t1 ++ issued kind t2.
Proof. unfold issued. apply flat_map_app. Qed.

Lemma requests_app (t1 t2 : list event) :
  requests (t1 ++ t2) = requests t1 ++ requests t2.
Proof. unfold requests. apply flat_map_app. Qed.

Lemma connects_app (t1 t2 : list event) :
  connects (t1 ++ t2) = connects t1 ++ connects t2.
Proof. unfold connects. apply flat_map_app. Qed.



End Observers.

Section Loop.

Variable env : Env.

Lemma clock_tick w : clock w <= clock (tick env w).
Proof.
  unfold tick. cbn. destruct (env_sigint env (calls w)); cbn; lia.
Qed.

Lemma calls_tick w : calls (tick env w) = S (calls w).
Proof. reflexivity. Qed.

Lemma exiting_tick w : exiting w = true -> exiting (tick env w) = true.
Proof.
  intros H. unfold tick. cbn. destruct (env_sigint env (calls w)); cbn; auto.
Qed.

Lemma exiting_tick_sigint w :
  env_sigint env (calls w) = true -> exiting (tick env w) = true.
Proof. intros H. unfold tick. cbn. rewrite H. reflexivity. Qed.

Lemma exiting_tick_quiet w :
  env_sigint env (calls w) = false -> exiting (tick env w) = exiting w.
Proof. intros H. unfold tick. cbn. rewrite H. reflexivity. Qed.

(** One evaluation of the inner condition and, if it holds, one body. *)
Lemma orchestrator_step turns eb tm w :
  orchestrator env (S turns) eb tm w =
  if env_running env (calls w) && negb (exiting (tick env w))
  then let r := iteration env eb tm (tick env w) in
       let r' := orchestrator env turns eb (value r) (after r) in
       (value r', after r', events r ++ events r')
  else (Left_loop, tick env w, []).
Proof.
  cbn. destruct (env_running env (calls w)); cbn; [|reflexivity].
  destruct (exiting (tick env w)); cbn; [reflexivity|].
  destruct (iteration env eb tm (tick env w)) as [[tm' w1] t1]. cbn.
  destruct (orchestrator env turns eb tm' w1) as [[e w2] t2]. reflexivity.
Qed.

(** What one body does to each of the two timers. *)
Lemma iteration_keep_alive eb tm w :
  let now := clock (tick env w) in
  let r := iteration env eb tm w in
  (now - last_keep_alive_request_time tm > seconds 20 ->
   issued is_keep_alive (events r) = [now] /\
   last_keep_alive_request_time (value r) = now) /\
  (now - last_keep_alive_request_time tm <= seconds 20 ->
   issued is_keep_alive (events r) = [] /\
   last_keep_alive_request_time (value r) = last_keep_alive_request_time tm).
Proof.
  unfold iteration. run_cases.
  all: split; intros; split; try reflexivity; lia.
Qed.


(** A timer that every body either leaves alone or sets to the time of the
    one request it enqueues, more than [gap] after the timer: the requests
    of the whole loop are spaced by more than [gap]. *)
Lemma orchestrator_spaced kind gap (sel : Timers -> Z) :
  (forall eb tm w,
      let r := iteration env eb tm w in
      (issued kind (events r) = [] /\ sel (value r) = sel tm) \/
      (exists now, issued kind (events r) = [now] /\ sel (value r) = now /\
                   now - sel tm > gap)) ->
  forall turns eb tm w,
    spaced gap (sel tm) (issued kind (events (orchestrator env turns eb tm w))).
Proof.
  intros Hbody. induction turns as [|turns IH]; intros eb tm w.
  - exact I.
  - rewrite orchestrator_step.
    destruct (env_running env (calls w) && negb (exiting (tick env w)));
      [|exact I].
    cbv zeta. rewrite events_mk, issued_app.
    specialize (IH eb (value (iteration env eb tm (tick env w)))
                   (after (iteration env eb tm (tick env w)))).
    destruct (Hbody eb tm (tick env w)) as [[E1 E2] | (now & E1 & E2 & Hgap)].
    + rewrite E1. rewrite E2 in IH. exact IH.
    + rewrite E1. rewrite E2 in IH. cbn. split; assumption.
Qed.

End Loop.

Section Attempts.

Variable env : Env.

Lemma solver_hash_tick w : solver_hash (tick env w) = solver_hash w.
Proof.
  unfold tick. cbn. destruct (env_sigint env (calls w)); reflexivity.
Qed.

Lemma solver_hash_with_hash v w : solver_hash (with_hash v w) = v.
Proof. reflexivity. Qed.

Ltac no_such_event H :=
  cbn [In] in H;
  repeat (destruct H as [H | H]; try discriminate H); try contradiction.

(** C1: a solving attempt (one body of the inner loop) in which
    [build_graph] returns [n >= 1] candidates reads one job, draws one
    nonce, gives the solver the seed hash of that job and that nonce, and
    enqueues exactly one submission, which carries that job (so its job id)
    and that nonce. *)
Theorem one_submission_per_solved_attempt eb tm w n :
  let tr := events (iteration env eb tm w) in
  In (EvBuildGraph n) tr -> (0 < n)%nat ->
  exists job nonce,
    let sv := env_solver env in
    let v := calculate_seed_hash sv job nonce in
    jobs_read tr = [job] /\
    nonces_drawn tr = [nonce] /\
    hashes_set tr = [v] /\
    graphs_built tr = [List.length (build_graph sv v)] /\
    submissions tr =
      [Submit eb job nonce
              (snd (resolve_found_to_nonces sv v (build_graph sv v)))].
Proof.
  unfold iteration. run_cases; intros H Hn.
  all: repeat rewrite ?solver_hash_tick, ?solver_hash_with_hash in *.
  all: try (no_such_event H; fail).
  all: cbn [In] in H; repeat (destruct H as [H | H]; try discriminate H);
    try contradiction.
  all: try (match goal with
            | E : negb (is_empty ?l) = false |- _ =>
                destruct l; [ | discriminate E]
            end;
            injection H as H; cbn in H; lia).
  all: eexists; eexists; repeat split; reflexivity.
Qed.

(** C10: a solving attempt in which [build_graph] returns no candidate
    enqueues no submission and logs no solution summary; the only request
    it can have enqueued is the keep-alive of the start of the body, and the
    body ends with the call to the solver: no sleep, nothing else, before
    the inner condition and the next poll of the job. *)
Theorem no_submission_without_candidates eb tm w :
  let tr := events (iteration env eb tm w) in
  In (EvBuildGraph 0) tr ->
  submissions tr = [] /\
  (forall k h, ~ In (EvLog (LogFound k h)) tr) /\
  Forall (fun r => is_keep_alive r = true) (requests tr) /\
  (forall d, ~ In (EvSleep d) tr) /\
  exists job nonce,
    let v := calculate_seed_hash (env_solver env) job nonce in
    build_graph (env_solver env) v = [] /\
    skipn (List.length (requests tr)) tr =
      [EvGetActiveJob job; EvNonce nonce; EvLog (LogStartingJob job nonce);
       EvSetHash v; EvBuildGraph 0].
Proof.
  unfold iteration. run_cases; intros H.
  all: repeat rewrite ?solver_hash_tick, ?solver_hash_with_hash in *.
  all: try (no_such_event H; fail).
  all: try (cbn [In] in H;
            repeat (destruct H as [H | H]; try discriminate H);
            try contradiction;
            match goal with
            | E : negb (is_empty ?l) = true |- _ =>
                destruct l; [discriminate E | discriminate H]
            end).
  all: match goal with
       | E : negb (is_empty ?l) = false |- _ =>
           destruct l eqn:El; [clear E | discriminate E]
       end.
  all: repeat split;
    [ intros k h Hin; no_such_event Hin
    | repeat constructor
    | intros d Hin; no_such_event Hin
    | eexists; eexists; split; [eassumption | reflexivity] ].
Qed.

End Attempts.

Section Timing.

Variable env : Env.

(** A property of event lists that holds of the empty list, of every body
    and of concatenations holds of the whole inner loop. *)
Lemma orchestrator_events_ind (P : list event -> Prop) :
  P [] ->
  (forall t1 t2, P t1 -> P t2 -> P (t1 ++ t2)) ->
  (forall eb tm w, P (events (iteration env eb tm w))) ->
  forall turns eb tm w, P (events (orchestrator env turns eb tm w)).
Proof.
  intros Hnil Happ Hbody. induction turns as [|turns IH]; intros eb tm w.
  - exact Hnil.
  - rewrite orchestrator_step.
    destruct (env_running env (calls w) && negb (exiting (tick env w)));
      [|exact Hnil].
    cbv zeta. rewrite events_mk. apply Happ; [apply Hbody | apply IH].
Qed.


Lemma loop_keep_alive_spaced turns eb tm w :
  spaced (seconds 20) (last_keep_alive_request_time tm)
         (issued is_keep_alive (events (orchestrator env turns eb tm w))).
Proof.
  apply (orchestrator_spaced env is_keep_alive (seconds 20)
           last_keep_alive_request_time).
  intros eb' tm' w'. cbv zeta.
  destruct (iteration_keep_alive env eb' tm' w') as [Hgt Hle].
  destruct (Z_gt_le_dec (clock (tick env w') - last_keep_alive_request_time tm')
                        (seconds 20)) as [Hc | Hc].
  - right. exists (clock (tick env w')). destruct (Hgt Hc). auto.
  - left. apply Hle, Hc.
Qed.




End Timing.

Section Progress.

Variable env : Env.

Lemma evolves_refl w : evolves env w w.
Proof.
  unfold evolves. repeat split; auto; try lia.
Qed.

Lemma evolves_trans w1 w2 w3 :
  evolves env w1 w2 -> evolves env w2 w3 -> evolves env w1 w3.
Proof.
  intros (C1 & N1 & E1 & Q1 & S1) (C2 & N2 & E2 & Q2 & S2).
  unfold evolves. repeat split.
  - lia.
  - lia.
  - auto.
  - intros Hq. rewrite Q2, Q1; auto; intros j Hj; apply Hq; lia.
  - intros k Hk Hs. destruct (S1 k Hk Hs) as [He | Hle]; [left; auto|].
    apply S2; assumption.
Qed.

Lemma evolves_tick w : evolves env w (tick env w).
Proof.
  unfold evolves. rewrite calls_tick. repeat split.
  - apply clock_tick.
  - lia.
  - apply exiting_tick.
  - intros Hq. apply exiting_tick_quiet, Hq. lia.
  - intros k Hk Hs. destruct (Nat.eq_dec k (calls w)) as [-> | Hne].
    + left. apply exiting_tick_sigint, Hs.
    + right. lia.
Qed.

Lemma evolves_asleep d w : 0 <= d -> evolves env w (asleep d w).
Proof.
  intros Hd. unfold evolves, asleep. cbn. repeat split; auto; lia.
Qed.

Lemma evolves_with_hash v w : evolves env w (with_hash v w).
Proof.
  unfold evolves, with_hash. cbn. repeat split; auto; lia.
Qed.

End Progress.

(** Follows a chain of calls, sleeps and solver updates. *)
Ltac evolves_chain :=
  repeat first
    [ apply evolves_refl
    | eapply evolves_trans;
      [ | first [ apply evolves_tick
                | apply evolves_asleep; unfold seconds, milliseconds; lia
                | apply evolves_with_hash ] ] ].

Section Session.

Variable env : Env.

Lemma evolves_iteration eb tm w :
  evolves env (tick env w) (after (iteration env eb tm w)).
Proof.
  unfold iteration. run_cases; unfold after; cbn [fst snd]; evolves_chain.
Qed.

Lemma evolves_body eb tm w :
  evolves env w (after (iteration env eb tm w)).
Proof.
  eapply evolves_trans; [apply evolves_tick | apply evolves_iteration].
Qed.

Lemma evolves_orchestrator turns eb tm w :
  evolves env w (after (orchestrator env turns eb tm w)).
Proof.
  revert tm w. induction turns as [|turns IH]; intros tm w.
  - apply evolves_refl.
  - rewrite orchestrator_step.
    destruct (env_running env (calls w) && negb (exiting (tick env w))).
    + cbv zeta. rewrite after_mk.
      eapply evolves_trans; [apply evolves_tick|].
      eapply evolves_trans; [apply evolves_body|]. apply IH.
    + rewrite after_mk. apply evolves_tick.
Qed.

(** The inner loop and the end of the epoch, by the way the loop ends. *)
Lemma from_loop_eq eb turns tm w :
  from_loop env eb turns tm w =
  match value (orchestrator env turns eb tm w) with
  | Out_of_turns =>
      (Out_of_turns, after (orchestrator env turns eb tm w),
       events (orchestrator env turns eb tm w))
  | Left_loop =>
      (Left_loop,
       tick env (tick env (tick env (after (orchestrator env turns eb tm w)))),
       events (orchestrator env turns eb tm w)
         ++ [EvStopRunning; EvJoinReader; EvJoinWriter])
  end.
Proof.
  unfold from_loop. cbn.
  destruct (orchestrator env turns eb tm w) as [[e w1] t1].
  destruct e; cbn; rewrite ?app_nil_r; reflexivity.
Qed.

Lemma evolves_from_loop eb turns tm w :
  evolves env w (after (from_loop env eb turns tm w)).
Proof.
  rewrite from_loop_eq.
  pose proof (evolves_orchestrator turns eb tm w) as H.
  destruct (value (orchestrator env turns eb tm w)); rewrite after_mk.
  - eapply evolves_trans; [exact H|]. evolves_chain.
  - exact H.
Qed.

(** The two ways through the body of the outer loop. *)
Lemma epoch_failed a eb turns w :
  env_connect env (calls (tick env w)) = false ->
  epoch env a eb turns w =
  (Left_loop,
   asleep (seconds 30) (tick env (tick env (tick env (tick env w)))),
   [EvLog LogConnecting;
    EvConnect (clock (tick env (tick env w))) (nodeHost a) (nodePort a) false;
    EvLog LogUnableConnect; EvSleep (seconds 30)]).
Proof.
  intros H. unfold epoch. cbn. rewrite H. cbn. reflexivity.
Qed.

Lemma epoch_connected a eb turns w :
  env_connect env (calls (tick env w)) = true ->
  let w6 := tick env (tick env (tick env (tick env (tick env (tick env w))))) in
  let r := from_loop env eb turns (mkTimers (clock w6) (clock w6)) w6 in
  epoch env a eb turns w =
  (value r, after r,
   [EvLog LogConnecting;
    EvConnect (clock (tick env (tick env w))) (nodeHost a) (nodePort a) true;
    EvStartReader; EvStartWriter;
    EvEnqueue (clock (tick env (tick env (tick env (tick env (tick env w))))))
              (Login (loginName a) (password a) true)]
     ++ events r).
Proof.
  intros H. unfold epoch. cbn. rewrite H. cbn.
  destruct (from_loop env eb turns _ _) as [[e w1] t1]. reflexivity.
Qed.

Lemma evolves_epoch a eb turns w :
  evolves env (tick env w) (after (epoch env a eb turns w)).
Proof.
  destruct (env_connect env (calls (tick env w))) eqn:E.
  - rewrite (epoch_connected a eb turns w E). cbv zeta. rewrite after_mk.
    eapply evolves_trans; [|apply evolves_from_loop]. evolves_chain.
  - rewrite (epoch_failed a eb turns w E), after_mk. evolves_chain.
Qed.

(** One evaluation of the outer condition and, if it holds, one body. *)
Lemma supervisor_step a eb turns epochs w :
  supervisor env a eb turns (S epochs) w =
  if exiting w then (Returned 0, tick env w, [EvDeleteSolver])
  else
    match value (epoch env a eb turns w) with
    | Out_of_turns =>
        (Unfinished, after (epoch env a eb turns w),
         events (epoch env a eb turns w))
    | Left_loop =>
        (value (supervisor env a eb turns epochs (after (epoch env a eb turns w))),
         after (supervisor env a eb turns epochs (after (epoch env a eb turns w))),
         events (epoch env a eb turns w)
           ++ events (supervisor env a eb turns epochs
                                 (after (epoch env a eb turns w))))
    end.
Proof.
  cbn. destruct (exiting w); [reflexivity|].
  destruct (epoch env a eb turns w) as [[e w1] t1]. cbn.
  destruct e; cbn.
  - destruct (supervisor env a eb turns epochs w1) as [[o w2] t2]. reflexivity.
  - rewrite app_nil_r. reflexivity.
Qed.

Lemma evolves_supervisor a eb turns epochs w :
  evolves env w (after (supervisor env a eb turns epochs w)).
Proof.
  revert w. induction epochs as [|epochs IH]; intros w.
  - apply evolves_refl.
  - rewrite supervisor_step. destruct (exiting w).
    + rewrite after_mk. apply evolves_tick.
    + pose proof (evolves_epoch a eb turns w) as H.
      destruct (value (epoch env a eb turns w)); rewrite after_mk.
      * eapply evolves_trans; [apply evolves_tick|].
        eapply evolves_trans; [exact H|]. apply IH.
      * eapply evolves_trans; [apply evolves_tick|]. exact H.
Qed.

(** The events of a run of the outer loop are those of its epochs, one
    after the other, and the deletion of the solver when it is left. *)
Lemma supervisor_epochs a eb turns epochs w :
  exists ws last,
    (last = [] \/ last = [EvDeleteSolver]) /\
    events (supervisor env a eb turns epochs w) =
    List.concat (map (fun w' => events (epoch env a eb turns w')) ws) ++ last.
Proof.
  revert w. induction epochs as [|epochs IH]; intros w.
  - exists [], []. split; [left|]; reflexivity.
  - rewrite supervisor_step. destruct (exiting w).
    + exists [], [EvDeleteSolver]. split; [right|]; reflexivity.
    + destruct (value (epoch env a eb turns w)); rewrite events_mk.
      * destruct (IH (after (epoch env a eb turns w))) as (ws & last & Hl & Hev).
        exists (w :: ws), last. split; [exact Hl|].
        rewrite Hev. cbn [map List.concat]. rewrite app_assoc. reflexivity.
      * exists [w], []. split; [left; reflexivity|].
        cbn [map List.concat]. rewrite !app_nil_r. reflexivity.
Qed.

(** [main] with parameters that pass: the start-up lines, the handler,
    then the outer loop. *)
Lemma main_proceeds argv a epochs turns w :
  parse_args argv = Proceed a ->
  value (main env argv epochs turns w)
  = value (supervisor env a (edge_bits_of (algo a)) turns epochs w) /\
  events (main env argv epochs turns w)
  = [EvLog (LogNode (nodeHost a) (nodePort a)); EvLog (LogLogin (loginName a));
     EvLog (LogAlgorithm (algo a)); EvSignalInstall]
      ++ events (supervisor env a (edge_bits_of (algo a)) turns epochs w).
Proof.
  intros H. unfold main. rewrite H. unfold miner. cbn.
  destruct (supervisor env a (edge_bits_of (algo a)) turns epochs w)
    as [[o w1] t1].
  split; reflexivity.
Qed.

End Session.

Section Epochs.

Variable env : Env.

Lemma body_never_logs_in eb tm w :
  Forall (fun r => is_login r = false)
         (requests (events (iteration env eb tm w))).
Proof.
  unfold iteration. run_cases; repeat constructor.
Qed.

Lemma loop_never_logs_in turns eb tm w :
  Forall (fun r => is_login r = false)
         (requests (events (orchestrator env turns eb tm w))).
Proof.
  apply (orchestrator_events_ind env
           (fun tr => Forall (fun r => is_login r = false) (requests tr))).
  - constructor.
  - intros t1 t2 H1 H2. rewrite requests_app. apply Forall_app. auto.
  - apply body_never_logs_in.
Qed.

Lemma body_never_connects eb tm w :
  connects (events (iteration env eb tm w)) = [].
Proof.
  unfold iteration. run_cases; reflexivity.
Qed.

Lemma loop_never_connects turns eb tm w :
  connects (events (orchestrator env turns eb tm w)) = [].
Proof.
  apply (orchestrator_events_ind env (fun tr => connects tr = [])).
  - reflexivity.
  - intros t1 t2 H1 H2. rewrite connects_app, H1, H2. reflexivity.
  - apply body_never_connects.
Qed.

Lemma from_loop_never_connects eb turns tm w :
  connects (events (from_loop env eb turns tm w)) = [].
Proof.
  rewrite from_loop_eq.
  destruct (value (orchestrator env turns eb tm w));
    rewrite events_mk, ?connects_app, loop_never_connects; reflexivity.
Qed.

(** The one connect attempt of an epoch. *)
Lemma epoch_connects a eb turns w :
  connects (events (epoch env a eb turns w)) =
  [(clock (tick env (tick env w)), env_connect env (calls (tick env w)))].
Proof.
  destruct (env_connect env (calls (tick env w))) eqn:E.
  - rewrite (epoch_connected env a eb turns w E). cbv zeta.
    rewrite events_mk, connects_app, from_loop_never_connects. reflexivity.
  - rewrite (epoch_failed env a eb turns w E). reflexivity.
Qed.

(** C7: in every epoch (one body of the outer loop) the login request is
    enqueued before the inner loop starts.  The epoch makes one connect
    attempt; when it fails nothing is enqueued, and when it succeeds the
    queue of the epoch is the login request of line 139 followed by the
    requests of the inner loop, all of them keep-alive, get-job or submit
    requests. *)
Theorem login_first a eb turns w :
  let tr := events (epoch env a eb turns w) in
  let ok := env_connect env (calls (tick env w)) in
  (exists t, connects tr = [(t, ok)]) /\
  if ok then
    exists rest,
      requests tr = Login (loginName a) (password a) true :: rest /\
      rest = requests (events (orchestrator env turns eb
               (mkTimers (clock (loop_start env w)) (clock (loop_start env w)))
               (loop_start env w))) /\
      Forall (fun r => is_keep_alive r || is_get_job r || is_submit r = true)
             rest
  else requests tr = [].
Proof.
  cbv zeta. split; [eexists; apply epoch_connects|].
  destruct (env_connect env (calls (tick env w))) eqn:E.
  - rewrite (epoch_connected env a eb turns w E). cbv zeta.
    rewrite events_mk, requests_app, from_loop_eq. fold (loop_start env w).
    pose proof (loop_never_logs_in turns eb
                  (mkTimers (clock (loop_start env w)) (clock (loop_start env w)))
                  (loop_start env w)) as H.
    eexists. split; [reflexivity|]. split.
    + destruct (value (orchestrator env turns eb _ (loop_start env w)));
        rewrite events_mk, ?requests_app; cbn; rewrite ?app_nil_r; reflexivity.
    + destruct (value (orchestrator env turns eb _ (loop_start env w)));
        rewrite events_mk, ?requests_app, ?app_nil_r.
      all: eapply Forall_impl; [|exact H].
      all: intros r Hr; destruct r; [discriminate Hr | reflexivity..].
  - rewrite (epoch_failed env a eb turns w E). reflexivity.
Qed.

Lemma clock_evolves w w' : evolves env w w' -> clock w <= clock w'.
Proof. intros H. apply H. Qed.

Lemma connects_not_before a eb turns epochs w :
  Forall (fun c => clock w <= fst c)
         (connects (events (supervisor env a eb turns epochs w))).
Proof.
  revert w. induction epochs as [|epochs IH]; intros w.
  - constructor.
  - rewrite supervisor_step. destruct (exiting w); [constructor|].
    pose proof (clock_evolves _ _ (evolves_epoch env a eb turns w)) as Hep.
    pose proof (clock_tick env w) as H1.
    pose proof (clock_tick env (tick env w)) as H2.
    destruct (value (epoch env a eb turns w));
      rewrite events_mk, ?connects_app, epoch_connects.
    + constructor; [cbn; lia|].
      eapply Forall_impl; [|apply IH]. cbn. intros c Hc. lia.
    + constructor; [cbn; lia | constructor].
Qed.

Lemma supervisor_backed_off a eb turns epochs w :
  backed_off (seconds 30)
             (connects (events (supervisor env a eb turns epochs w))).
Proof.
  revert w. induction epochs as [|epochs IH]; intros w.
  - exact I.
  - rewrite supervisor_step. destruct (exiting w); [exact I|].
    destruct (value (epoch env a eb turns w)) eqn:Ev;
      rewrite events_mk, ?connects_app, epoch_connects.
    + cbn [app backed_off]. split; [|apply IH].
      intros Hfail. rewrite (epoch_failed env a eb turns w Hfail), after_mk.
      eapply Forall_impl; [|apply connects_not_before].
      cbn beta. intros c Hc.
      assert (clock (tick env (tick env w)) + seconds 30
              <= clock (asleep (seconds 30)
                               (tick env (tick env (tick env (tick env w)))))).
      { unfold asleep. cbn [clock].
        pose proof (clock_tick env (tick env (tick env w))).
        pose proof (clock_tick env (tick env (tick env (tick env w)))).
        lia. }
      lia.
    + cbn. split; [constructor | exact I].
Qed.

Lemma supervisor_returns_when_exiting a eb turns epochs w c :
  value (supervisor env a eb turns epochs w) = Returned c ->
  c = 0 /\ exiting (after (supervisor env a eb turns epochs w)) = true.
Proof.
  revert w. induction epochs as [|epochs IH]; intros w.
  - discriminate.
  - rewrite supervisor_step. destruct (exiting w) eqn:Ex.
    + rewrite value_mk, after_mk. intros H. injection H as <-.
      split; [reflexivity | apply exiting_tick, Ex].
    + destruct (value (epoch env a eb turns w)); rewrite value_mk, after_mk.
      * apply IH.
      * discriminate.
Qed.

Lemma supervisor_keeps_trying a eb turns epochs w :
  (forall k, env_connect env k = false) ->
  (forall k, env_sigint env k = false) ->
  exiting w = false ->
  value (supervisor env a eb turns epochs w) = Unfinished /\
  List.length (connects (events (supervisor env a eb turns epochs w))) = epochs.
Proof.
  intros Hc Hs. revert w. induction epochs as [|epochs IH]; intros w Hw.
  - split; reflexivity.
  - rewrite supervisor_step, Hw.
    rewrite (epoch_failed env a eb turns w (Hc _)), value_mk, after_mk, events_mk.
    destruct (IH (asleep (seconds 30)
                    (tick env (tick env (tick env (tick env w)))))) as [IH1 IH2].
    { unfold asleep. cbn [exiting].
      rewrite !exiting_tick_quiet; auto. }
    rewrite value_mk, events_mk, connects_app, length_app, IH2.
    split; [exact IH1 | reflexivity].
Qed.

(** C5: after a failed connect attempt no connect attempt is made sooner
    than 30 s later (the steady-clock times of the calls are at least 30 s
    apart); the outer loop is left, and then [main] returns 0, only with
    [exiting] set; and when every connect fails and no SIGINT arrives, the
    loop goes on: [epochs] evaluations of its condition make [epochs]
    connect attempts and do not end the run. *)
Theorem connect_backoff a eb turns epochs w :
  let r := supervisor env a eb turns epochs w in
  backed_off (seconds 30) (connects (events r)) /\
  (forall c, value r = Returned c -> c = 0 /\ exiting (after r) = true) /\
  ((forall k, env_connect env k = false) ->
   (forall k, env_sigint env k = false) ->
   exiting w = false ->
   value r = Unfinished /\ List.length (connects (events r)) = epochs).
Proof.
  cbv zeta. split; [apply supervisor_backed_off|].
  split; [intros c; apply supervisor_returns_when_exiting|].
  apply supervisor_keeps_trying.
Qed.

End Epochs.

Section EpochTiming.

Variable env : Env.

(** The events of an epoch whose connect succeeded: the start of the
    session, the inner loop from both timers at the clock reading [t0] of
    line 141, and the end of the epoch if the loop is left. *)
Lemma epoch_connected_events a eb turns w :
  env_connect env (calls (tick env w)) = true ->
  exists t0 w0 t1 tail,
    clock w <= t0 /\
    (tail = [] \/ tail = [EvStopRunning; EvJoinReader; EvJoinWriter]) /\
    events (epoch env a eb turns w) =
      [EvLog LogConnecting;
       EvConnect (clock (tick env (tick env w))) (nodeHost a) (nodePort a) true;
       EvStartReader; EvStartWriter;
       EvEnqueue t1 (Login (loginName a) (password a) true)]
        ++ events (orchestrator env turns eb (mkTimers t0 t0) w0) ++ tail.
Proof.
  intros E. rewrite (epoch_connected env a eb turns w E). cbv zeta.
  rewrite events_mk, from_loop_eq.
  match goal with
  | |- context [orchestrator env turns eb (mkTimers ?t ?t) ?w1] =>
      exists t, w1
  end.
  eexists. 
  assert (Ht : clock w <= clock
            (tick env (tick env (tick env (tick env (tick env (tick env w))))))).
  { apply (clock_evolves env). evolves_chain. }
  match goal with
  | |- context [value ?o] => destruct (value o)
  end; rewrite events_mk; eexists; (split; [exact Ht|]).
  - split; [right; reflexivity | reflexivity].
  - split; [left; reflexivity | rewrite app_nil_r; reflexivity].
Qed.

(** The requests of one kind an epoch enqueues after the login are those
    of its inner loop. *)
Lemma epoch_issued kind a eb turns w :
  kind (Login (loginName a) (password a) true) = false ->
  issued kind (events (epoch env a eb turns w)) = [] \/
  exists t0 w0,
    clock w <= t0 /\
    issued kind (events (epoch env a eb turns w)) =
    issued kind (events (orchestrator env turns eb (mkTimers t0 t0) w0)).
Proof.
  intros Hk. destruct (env_connect env (calls (tick env w))) eqn:E.
  - right.
    destruct (epoch_connected_events a eb turns w E)
      as (t0 & w0 & t1 & tail & Ht & Htail & Hev).
    exists t0, w0. split; [exact Ht|].
    rewrite Hev, !issued_app. unfold issued at 1. cbn [flat_map app].
    rewrite Hk. cbn [app].
    destruct Htail as [-> | ->]; cbn; rewrite app_nil_r; reflexivity.
  - left. rewrite (epoch_failed env a eb turns w E). reflexivity.
Qed.


(** C3 (amended): in every body of the inner loop, a keep-alive request is
    enqueued, and the keep-alive timer set to [now], when [now] is more
    than 20 s after the timer; when it is 20 s or less, none is enqueued
    and the timer is kept.  So in every epoch the keep-alive requests are
    each more than 20 s after the one before, the first more than 20 s
    after a time [t0] of the epoch (the reading of line 141), whatever the
    pace of the loop. *)
Theorem keep_alive_spacing eb tm w :
  let now := clock (tick env w) in
  let r := iteration env eb tm w in
  (now - last_keep_alive_request_time tm > seconds 20 ->
   issued is_keep_alive (events r) = [now] /\
   last_keep_alive_request_time (value r) = now) /\
  (now - last_keep_alive_request_time tm <= seconds 20 ->
   issued is_keep_alive (events r) = [] /\
   last_keep_alive_request_time (value r) = last_keep_alive_request_time tm) /\
  (forall a turns w0,
      exists t0,
        clock w0 <= t0 /\
        spaced (seconds 20) t0
               (issued is_keep_alive (events (epoch env a eb turns w0)))).
Proof.
  cbv zeta. split; [apply iteration_keep_alive|].
  split; [apply iteration_keep_alive|].
  intros a turns w0.
  destruct (epoch_issued is_keep_alive a eb turns w0 eq_refl)
    as [-> | (t0 & w1 & Ht & ->)].
  - exists (clock w0). split; [lia | exact I].
  - exists t0. split; [exact Ht|].
    apply (loop_keep_alive_spaced env turns eb (mkTimers t0 t0) w1).
Qed.





End EpochTiming.

Section Teardown.

Variable env : Env.

Lemma resume_eq a eb turns epochs tm w :
  resume env a eb turns epochs tm w =
  match value (from_loop env eb turns tm w) with
  | Out_of_turns =>
      (Unfinished, after (from_loop env eb turns tm w),
       events (from_loop env eb turns tm w))
  | Left_loop =>
      (value (supervisor env a eb turns epochs
                         (after (from_loop env eb turns tm w))),
       after (supervisor env a eb turns epochs
                         (after (from_loop env eb turns tm w))),
       events (from_loop env eb turns tm w)
         ++ events (supervisor env a eb turns epochs
                               (after (from_loop env eb turns tm w))))
  end.
Proof.
  unfold resume. cbn.
  destruct (from_loop env eb turns tm w) as [[e w1] t1]. cbn.
  destruct e; cbn.
  - destruct (supervisor env a eb turns epochs w1) as [[o w2] t2]. reflexivity.
  - rewrite app_nil_r. reflexivity.
Qed.

Lemma from_loop_value eb turns tm w :
  value (from_loop env eb turns tm w) = value (orchestrator env turns eb tm w).
Proof.
  rewrite from_loop_eq.
  destruct (value (orchestrator env turns eb tm w)); reflexivity.
Qed.

Lemma calls_after_body eb tm w :
  (calls w < calls (after (iteration env eb tm w)))%nat.
Proof.
  pose proof (evolves_iteration env eb tm w) as (_ & H & _).
  rewrite calls_tick in H. lia.
Qed.

Lemma calls_after_loop eb turns tm w :
  (calls w < calls (after (orchestrator env (S turns) eb tm w)))%nat.
Proof.
  rewrite orchestrator_step.
  destruct (env_running env (calls w) && negb (exiting (tick env w)));
    cbv zeta; rewrite after_mk.
  - pose proof (evolves_body env eb tm (tick env w)) as (_ & H1 & _).
    pose proof (evolves_orchestrator env turns eb
                  (value (iteration env eb tm (tick env w)))
                  (after (iteration env eb tm (tick env w)))) as (_ & H2 & _).
    rewrite calls_tick in H1. lia.
  - rewrite calls_tick. lia.
Qed.

Lemma calls_after_from_loop eb turns tm w :
  (calls (after (orchestrator env turns eb tm w))
   <= calls (after (from_loop env eb turns tm w)))%nat.
Proof.
  rewrite from_loop_eq.
  destruct (value (orchestrator env turns eb tm w)); rewrite after_mk;
    rewrite ?calls_tick; lia.
Qed.

(** After the running flag has dropped, the inner loop ends at its next
    condition: it runs no body, or the one that was under way. *)
Lemma loop_after_failure eb turns tm w :
  (forall j,
      (calls w < j < calls (after (orchestrator env (S (S turns)) eb tm w)))%nat ->
      env_running env j = false) ->
  value (orchestrator env (S (S turns)) eb tm w) = Left_loop /\
  (events (orchestrator env (S (S turns)) eb tm w) = [] \/
   events (orchestrator env (S (S turns)) eb tm w)
   = events (iteration env eb tm (tick env w))).
Proof.
  rewrite orchestrator_step.
  destruct (env_running env (calls w) && negb (exiting (tick env w))).
  - cbv zeta. rewrite after_mk. intros Hrun.
    pose proof (calls_after_body eb tm (tick env w)) as H1.
    pose proof (calls_after_loop eb turns
                  (value (iteration env eb tm (tick env w)))
                  (after (iteration env eb tm (tick env w)))) as H2.
    rewrite calls_tick in H1.
    rewrite orchestrator_step, Hrun by lia.
    cbn [andb]. rewrite value_mk, events_mk, app_nil_r. auto.
  - intros _. rewrite value_mk, events_mk. auto.
Qed.

Lemma epoch_starts a eb turns w :
  exists ok rest,
    events (epoch env a eb turns w) =
    [EvLog LogConnecting;
     EvConnect (clock (tick env (tick env w))) (nodeHost a) (nodePort a) ok]
      ++ rest.
Proof.
  destruct (env_connect env (calls (tick env w))) eqn:E.
  - rewrite (epoch_connected env a eb turns w E). cbv zeta. rewrite events_mk.
    eexists; eexists; reflexivity.
  - rewrite (epoch_failed env a eb turns w E), events_mk.
    eexists; eexists; reflexivity.
Qed.

(** A body sleeps, once and for 100 ms, when it reads no valid job, and
    runs the solver, once and without a sleep, when it reads one. *)
Lemma body_sleeps_or_solves eb tm w job :
  jobs_read (events (iteration env eb tm w)) = [job] ->
  (is_valid job = false ->
   sleeps (events (iteration env eb tm w)) = [milliseconds 100] /\
   graphs_built (events (iteration env eb tm w)) = []) /\
  (is_valid job = true ->
   sleeps (events (iteration env eb tm w)) = [] /\
   List.length (graphs_built (events (iteration env eb tm w))) = 1%nat).
Proof.
  unfold iteration. run_cases; intros Hjob; injection Hjob as <-.
  all: rewrite ?calls_tick in *.
  all: split; intros Hv; try (rewrite Hv in *; discriminate).
  all: split; reflexivity.
Qed.

(** C4 (amended): when the running flag is false from the next call to
    the end of the epoch and no SIGINT arrives in that time, the inner loop
    ends at its next condition, after no body or after the one body that
    was under way: an idle body, with its one sleep of 100 ms, or a solving
    attempt, which has no sleep and lasts as long as the solver.  Then the
    session is stopped, the reader and the writer are joined, and the
    outer loop makes a new connect attempt. *)
Theorem transport_failure_restarts a eb turns epochs tm w :
  (forall j,
      (calls w < j < calls (after (from_loop env eb (S (S turns)) tm w)))%nat ->
      env_running env j = false) ->
  (forall j,
      (calls w <= j < calls (after (from_loop env eb (S (S turns)) tm w)))%nat ->
      env_sigint env j = false) ->
  exiting w = false ->
  exists body t ok rest,
    (body = [] \/ body = events (iteration env eb tm (tick env w))) /\
    (forall job, jobs_read body = [job] ->
       (is_valid job = false ->
        sleeps body = [milliseconds 100] /\ graphs_built body = []) /\
       (is_valid job = true ->
        sleeps body = [] /\ List.length (graphs_built body) = 1%nat)) /\
    value (orchestrator env (S (S turns)) eb tm w) = Left_loop /\
    events (orchestrator env (S (S turns)) eb tm w) = body /\
    events (resume env a eb (S (S turns)) (S epochs) tm w) =
      body ++ [EvStopRunning; EvJoinReader; EvJoinWriter;
               EvLog LogConnecting;
               EvConnect t (nodeHost a) (nodePort a) ok] ++ rest.
Proof.
  intros Hrun Hquiet Hex.
  destruct (loop_after_failure eb turns tm w) as [Hv Hbody].
  { intros j Hj. apply Hrun.
    pose proof (calls_after_from_loop eb (S (S turns)) tm w). lia. }
  pose proof (evolves_from_loop env eb (S (S turns)) tm w) as (_ & _ & _ & Hq & _).
  rewrite Hex in Hq.
  assert (Hex' : exiting (after (from_loop env eb (S (S turns)) tm w)) = false).
  { apply Hq. exact Hquiet. }
  destruct (epoch_starts a eb (S (S turns)) (after (from_loop env eb (S (S turns)) tm w)))
    as (ok & rest & Hep).
  assert (Hsup : exists more,
             events (supervisor env a eb (S (S turns)) (S epochs)
                       (after (from_loop env eb (S (S turns)) tm w))) =
             events (epoch env a eb (S (S turns))
                       (after (from_loop env eb (S (S turns)) tm w))) ++ more).
  { rewrite supervisor_step, Hex'.
    destruct (value (epoch env a eb (S (S turns))
                       (after (from_loop env eb (S (S turns)) tm w))));
      cbv beta iota; rewrite events_mk; eexists;
      [reflexivity | symmetry; apply app_nil_r]. }
  destruct Hsup as (more & Hsup).
  assert (Hfl : events (from_loop env eb (S (S turns)) tm w) =
                events (orchestrator env (S (S turns)) eb tm w)
                  ++ [EvStopRunning; EvJoinReader; EvJoinWriter]).
  { rewrite from_loop_eq, Hv. reflexivity. }
  exists (events (orchestrator env (S (S turns)) eb tm w)).
  eexists. exists ok. exists (rest ++ more).
  split; [exact Hbody|]. split.
  { intros job. destruct Hbody as [-> | ->].
    - discriminate.
    - apply body_sleeps_or_solves. }
  split; [exact Hv|]. split; [reflexivity|].
  rewrite resume_eq, from_loop_value, Hv. cbv beta iota.
  rewrite events_mk, Hsup, Hep, Hfl.
  rewrite <- !app_assoc. reflexivity.
Qed.

Lemma cancelled_evolves k w w' :
  cancelled_by env k w -> evolves env w w' -> cancelled_by env k w'.
Proof.
  intros [He | [Hk Hs]] (_ & _ & E & _ & S5).
  - left. auto.
  - destruct (S5 k Hk Hs) as [H | H]; [left; exact H | right; auto].
Qed.

(** With cancellation fired or due by call [k], the inner loop is left
    within the turns that make the calls up to [k]. *)
Lemma loop_leaves k eb turns tm w :
  cancelled_by env k w -> (k + 1 - calls w < turns)%nat ->
  value (orchestrator env turns eb tm w) = Left_loop.
Proof.
  revert tm w. induction turns as [|turns IH]; intros tm w Hc Hk; [lia|].
  rewrite orchestrator_step.
  destruct (env_running env (calls w)); cbn [andb]; [|reflexivity].
  destruct (exiting (tick env w)) eqn:Ex; cbn [negb]; [reflexivity|].
  cbv zeta. rewrite value_mk. apply IH.
  - eapply cancelled_evolves; [exact Hc|].
    eapply evolves_trans; [apply evolves_tick | apply evolves_body].
  - pose proof (calls_after_body eb tm (tick env w)) as H.
    rewrite calls_tick in H.
    destruct (cancelled_evolves k w (tick env w) Hc (evolves_tick env w))
      as [He | [Hle _]]; [congruence|].
    rewrite calls_tick in Hle. unfold value, after in *. lia.
Qed.

Lemma epoch_leaves k a eb turns w :
  cancelled_by env k w -> (k + 1 - calls w < turns)%nat ->
  value (epoch env a eb turns w) = Left_loop.
Proof.
  intros Hc Hk. destruct (env_connect env (calls (tick env w))) eqn:E.
  - rewrite (epoch_connected env a eb turns w E). cbv zeta.
    rewrite value_mk, from_loop_value. apply (loop_leaves k).
    + eapply cancelled_evolves; [exact Hc|]. evolves_chain.
    + rewrite !calls_tick. lia.
  - rewrite (epoch_failed env a eb turns w E). reflexivity.
Qed.

Lemma supervisor_returns k a eb turns epochs w :
  cancelled_by env k w -> (k + 1 - calls w < turns)%nat ->
  (k + 1 - calls w < epochs)%nat ->
  value (supervisor env a eb turns epochs w) = Returned 0.
Proof.
  revert w. induction epochs as [|epochs IH]; intros w Hc Ht He; [lia|].
  rewrite supervisor_step. destruct (exiting w) eqn:Ex; [reflexivity|].
  rewrite (epoch_leaves k a eb turns w Hc Ht), value_mk.
  pose proof (evolves_epoch env a eb turns w) as Hev.
  assert (Hn : (calls w < calls (after (epoch env a eb turns w)))%nat).
  { destruct Hev as (_ & Hn & _). rewrite calls_tick in Hn. lia. }
  destruct Hc as [Hc | [Hle Hs]]; [congruence|].
  apply IH; try lia.
  eapply cancelled_evolves; [right; split; [exact Hle | exact Hs]|].
  eapply evolves_trans; [apply evolves_tick | exact Hev].
Qed.

(** C6: once cancellation has fired ([exiting] is set, or a SIGINT comes
    with call [k]) the run ends with [main] returning 0, from the outer
    condition as from inside an epoch, within the turns that make the
    calls up to [k].  When [exiting] is set, or the SIGINT comes with a
    call of the inner loop, that loop is left, the epoch is torn down and
    the outer loop is left at its condition: after the inner loop the run
    makes no connect attempt and starts no epoch.  With [exiting] set both
    loops are left at their conditions without a body. *)
Theorem cancellation_shuts_down k a eb turns epochs tm w :
  cancelled_by env k w ->
  (k + 1 - calls w < turns)%nat ->
  (k + 1 - calls w < epochs)%nat ->
  value (supervisor env a eb turns epochs w) = Returned 0 /\
  value (resume env a eb turns epochs tm w) = Returned 0 /\
  (forall argv, parse_args argv = Proceed a ->
                value (main env argv epochs turns w) = Returned 0) /\
  (exiting w = true \/
   (k < calls (after (orchestrator env turns eb tm w)))%nat ->
   value (orchestrator env turns eb tm w) = Left_loop /\
   events (resume env a eb turns epochs tm w) =
     events (orchestrator env turns eb tm w)
       ++ [EvStopRunning; EvJoinReader; EvJoinWriter; EvDeleteSolver] /\
   connects (events (resume env a eb turns epochs tm w)) = []) /\
  (exiting w = true ->
   orchestrator env turns eb tm w = (Left_loop, tick env w, []) /\
   events (supervisor env a eb turns epochs w) = [EvDeleteSolver]).
Proof.
  intros Hc Ht He. split; [apply (supervisor_returns k); assumption|].
  assert (Hsup : forall w', evolves env w w' ->
            value (supervisor env a eb turns epochs w') = Returned 0).
  { intros w' Hev. pose proof Hev as (_ & Hcalls & _).
    apply (supervisor_returns k); try lia.
    eapply cancelled_evolves; [exact Hc | exact Hev]. }
  pose proof (loop_leaves k eb turns tm w Hc Ht) as Hleft.
  split.
  { rewrite resume_eq, from_loop_value, Hleft.
    rewrite value_mk. apply Hsup, evolves_from_loop. }
  split.
  { intros argv Hargv.
    rewrite (proj1 (main_proceeds env argv a epochs turns w Hargv)).
    apply (supervisor_returns k); assumption. }
  destruct epochs as [|epochs]; [lia|].
  split.
  - intros Hfired. split; [exact Hleft|].
    assert (Hex : exiting (after (orchestrator env turns eb tm w)) = true).
    { pose proof (evolves_orchestrator env turns eb tm w)
        as (_ & _ & H3 & _ & H5).
      destruct Hc as [Hc | [Hle Hs]]; [auto|].
      destruct Hfired as [Hf | Hf]; [auto|].
      destruct (H5 k Hle Hs) as [H | H]; [exact H | lia]. }
    assert (Hex3 : exiting (tick env (tick env (tick env
                     (after (orchestrator env turns eb tm w))))) = true)
      by (repeat apply exiting_tick; exact Hex).
    assert (Hev : events (resume env a eb turns (S epochs) tm w) =
                  events (orchestrator env turns eb tm w)
                    ++ [EvStopRunning; EvJoinReader; EvJoinWriter;
                        EvDeleteSolver]).
    { rewrite resume_eq, from_loop_eq, Hleft. cbv beta iota.
      rewrite value_mk. cbv beta iota.
      rewrite !events_mk, !after_mk, supervisor_step, Hex3, events_mk.
      rewrite <- app_assoc. reflexivity. }
    split; [exact Hev|].
    rewrite Hev, connects_app, loop_never_connects. reflexivity.
  - intros Hex. destruct turns as [|turns]; [lia|]. split.
    + rewrite orchestrator_step, (exiting_tick env w Hex).
      rewrite andb_false_r. reflexivity.
    + rewrite supervisor_step, Hex. reflexivity.
Qed.

End Teardown.

Section Parser.

Lemma skipn_two (n : nat) (l : list string) :
  (S n < List.length l)%nat ->
  skipn n l = nth n l "" :: nth (S n) l "" :: skipn (S (S n)) l.
Proof.
  revert l. induction n as [|n IH]; intros l H.
  - destruct l as [|x [|y l]]; cbn in H; try lia. reflexivity.
  - destruct l as [|x l]; cbn in H; [lia|].
    cbn [skipn nth]. apply IH. lia.
Qed.

Lemma skipn_short (n : nat) (l : list string) :
  (List.length l <= S n)%nat -> (skipn n l = [] \/ exists x, skipn n l = [x]).
Proof.
  intros H. pose proof (length_skipn n l) as Hl.
  destruct (skipn n l) as [|x [|y r]]; auto.
  - right. eauto.
  - cbn in Hl. lia.
Qed.

(** The indexed loop reads the tokens two by two. *)
Lemma parse_loop_tokens turns i argv a :
  (1 <= i)%nat -> (List.length argv <= i + 2 * turns)%nat ->
  parse_loop turns i argv a = parse_tokens (skipn (i - 1) argv) a.
Proof.
  revert i a. induction turns as [|turns IH]; intros i a Hi Hlen.
  - cbn [parse_loop].
    destruct (skipn_short (i - 1) argv) as [E | [x E]]; [lia | |];
      rewrite E; reflexivity.
  - cbn [parse_loop]. destruct (Nat.ltb_spec i (List.length argv)) as [Hlt | Hge].
    + rewrite (skipn_two (i - 1) argv) by lia.
      replace (S (i - 1)) with i by lia.
      cbn [parse_tokens].
      destruct (parse_pair (nth (i - 1) argv "") (nth i argv "") a);
        try reflexivity.
      rewrite IH by lia. replace (i + 2 - 1)%nat with (S i) by lia.
      reflexivity.
    + destruct (skipn_short (i - 1) argv) as [E | [x E]]; [lia | |];
        rewrite E; reflexivity.
Qed.

Lemma parse_args_tokens argv :
  parse_args argv =
  if Nat.ltb (List.length argv) 7 then Exit1 (ErrUsage (nth 0 argv ""))
  else
    match parse_tokens (tl argv) args0 with
    | Proceed a =>
        if (nodePort a =? -1) || Str.empty (nodeHost a)
        then Exit1 ErrNodeUndefined
        else if negb (String.eqb (algo a) "C31") && negb (String.eqb (algo a) "C32")
        then Exit1 ErrInvalidAlgorithm
        else Proceed a
    | Exit1 e => Exit1 e
    | Uncaught r => Uncaught r
    end.
Proof.
  unfold parse_args. rewrite parse_loop_tokens by lia.
  destruct argv; reflexivity.
Qed.

(** A token after the last pair is not read. *)
Lemma parse_tokens_odd_one_out m toks t a :
  List.length toks = (2 * m)%nat ->
  parse_tokens (toks ++ [t]) a = parse_tokens toks a.
Proof.
  revert toks a. induction m as [|m IH]; intros toks a H.
  - destruct toks; [reflexivity | discriminate H].
  - destruct toks as [|k [|v rest]]; cbn in H; try lia.
    cbn [app parse_tokens]. destruct (parse_pair k v a); try reflexivity.
    apply IH. lia.
Qed.

(** C9: when [argc] is even and at least 8, the last token of the command
    line is not examined: parsing gives what it gives without that token,
    whatever the token is, and so does the whole of [main]. *)
Theorem trailing_token_ignored argv t :
  Nat.even (List.length (argv ++ [t])) = true ->
  (8 <= List.length (argv ++ [t]))%nat ->
  parse_args (argv ++ [t]) = parse_args argv /\
  (forall t', parse_args (argv ++ [t']) = parse_args (argv ++ [t])) /\
  (forall env epochs turns,
      main env (argv ++ [t]) epochs turns = main env argv epochs turns).
Proof.
  intros Heven Hlen. rewrite length_app in *. cbn [List.length] in *.
  assert (Hdrop : forall x, parse_args (argv ++ [x]) = parse_args argv).
  { intros x. rewrite !parse_args_tokens, length_app. cbn [List.length].
    destruct (Nat.ltb_spec (List.length argv + 1) 7); [lia|].
    destruct (Nat.ltb_spec (List.length argv) 7); [lia|].
    destruct argv as [|p toks]; [cbn in Hlen; lia|].
    cbn [app tl].
    replace (List.length (p :: toks) + 1)%nat
      with (S (S (List.length toks))) in Heven by (cbn; lia).
    rewrite Nat.even_succ_succ in Heven.
    apply Nat.even_spec in Heven. destruct Heven as [m Hm].
    rewrite (parse_tokens_odd_one_out m) by exact Hm. reflexivity. }
  split; [apply Hdrop|]. split.
  - intros t'. rewrite !Hdrop. reflexivity.
  - intros env epochs turns. unfold main. rewrite Hdrop. reflexivity.
Qed.

End Parser.

Section Startup.

Lemma pair_ind (P : list string -> Prop) :
  P [] -> (forall x, P [x]) ->
  (forall k v rest, P rest -> P (k :: v :: rest)) ->
  forall l, P l.
Proof.
  intros H0 H1 H2 l.
  assert (H : P l /\ forall x, P (x :: l)).
  { induction l as [|y l [IH1 IH2]]; split; auto. }
  apply H.
Qed.

(** What a turn of the loop that goes on has checked and stored. *)
Lemma parse_pair_proceed k v a a1 :
  parse_pair k v a = Proceed a1 ->
  known_key k = true /\
  (String.eqb k "-node" = true ->
   has_colon v = true /\ nodeHost a1 = host_part v /\
   Str.empty (port_part v) = false) /\
  (String.eqb k "-node" = false ->
   nodeHost a1 = nodeHost a /\ nodePort a1 = nodePort a) /\
  algo a1 = (if String.eqb k "-algo" then v else algo a).
Proof.
  unfold parse_pair, known_key, has_colon, host_part, port_part.
  destruct (String.eqb k "-node") eqn:En.
  - apply String.eqb_eq in En. subst k.
    destruct (Str.find ":" v) as [pos|]; [|discriminate].
    destruct (Str.stoi (Str.substr_from (pos + 1) v)) eqn:Es; try discriminate.
    intros H. injection H as <-. cbn [nodeHost nodePort algo].
    repeat split; try discriminate.
    destruct (Str.substr_from (pos + 1) v); [discriminate Es | reflexivity].
  - destruct (String.eqb k "-login") eqn:El;
      [|destruct (String.eqb k "-pass") eqn:Ep;
        [|destruct (String.eqb k "-algo") eqn:Ea]]; try discriminate.
    all: intros H; injection H as <-; cbn [nodeHost nodePort algo].
    all: repeat split; try discriminate; try reflexivity.
    + apply String.eqb_eq in El. subst k. reflexivity.
    + apply String.eqb_eq in Ep. subst k. reflexivity.
Qed.

(** What a loop that goes through has checked and stored. *)
Lemma parse_tokens_proceed toks :
  forall a a', parse_tokens toks a = Proceed a' ->
  node_without_colon (pairs toks) = false /\
  unknown_key (pairs toks) = false /\
  algo a' = match last_value "-algo" (pairs toks) with
            | Some v => v
            | None => algo a
            end /\
  match last_value "-node" (pairs toks) with
  | Some v => nodeHost a' = host_part v /\ Str.empty (port_part v) = false
  | None => nodeHost a' = nodeHost a /\ nodePort a' = nodePort a
  end.
Proof.
  induction toks as [| x | k v rest IH] using pair_ind; intros a a' H.
  - injection H as <-. repeat split.
  - injection H as <-. repeat split.
  - cbn [parse_tokens] in H.
    destruct (parse_pair k v a) as [a1 | e | r] eqn:Ep; try discriminate.
    destruct (parse_pair_proceed k v a a1 Ep) as (Hk & Hnode & Hother & Halgo).
    destruct (IH a1 a' H) as (I1 & I2 & I3 & I4).
    unfold node_without_colon, unknown_key in *.
    cbn [pairs existsb last_value fst snd].
    rewrite I1, I2, Hk. cbn [negb orb].
    repeat split.
    + destruct (String.eqb k "-node") eqn:En; [|reflexivity].
      destruct (Hnode eq_refl) as (Hc & _). rewrite Hc. reflexivity.
    + rewrite I3. destruct (last_value "-algo" (pairs rest)); [reflexivity|].
      rewrite Halgo. destruct (String.eqb k "-algo"); reflexivity.
    + destruct (last_value "-node" (pairs rest)); [exact I4|].
      destruct (String.eqb k "-node") eqn:En.
      * destruct (Hnode eq_refl) as (_ & Hh & Hp).
        destruct I4 as [I4 _]. rewrite I4. auto.
      * destruct (Hother eq_refl) as [Hh Hp]. destruct I4 as [I4 I5].
        rewrite I4, I5. auto.
Qed.

(** Start-up parameters that pass are not malformed. *)
Lemma parse_args_proceed argv a :
  parse_args argv = Proceed a -> malformed argv = false.
Proof.
  rewrite parse_args_tokens. unfold malformed, too_few.
  destruct (Nat.ltb (List.length argv) 7); [discriminate|].
  destruct (parse_tokens (tl argv) args0) as [a1 | e | r] eqn:Ep;
    try discriminate.
  destruct (parse_tokens_proceed _ _ _ Ep) as (H1 & H2 & H3 & H4).
  destruct ((nodePort a1 =? -1) || Str.empty (nodeHost a1)) eqn:Enode;
    [discriminate|].
  destruct (negb (String.eqb (algo a1) "C31") && negb (String.eqb (algo a1) "C32"))
    eqn:Ealgo; [discriminate|].
  intros _. rewrite H1, H2. cbn [orb].
  apply orb_false_iff in Enode. destruct Enode as [Eport Ehost].
  unfold host_or_port_missing, bad_algorithm.
  destruct (last_value "-node" (pairs (tl argv))) as [v|].
  - destruct H4 as [Hh Hp]. rewrite <- Hh, Ehost, Hp. cbn [orb].
    destruct (last_value "-algo" (pairs (tl argv))) as [x|].
    + rewrite <- H3. exact Ealgo.
    + rewrite H3 in Ealgo. discriminate Ealgo.
  - destruct H4 as [Hh Hp]. rewrite Hp in Eport. discriminate Eport.
Qed.

(** The loop is ended by the exception only at a [-node] pair whose value
    has a colon and whose port text [std::stoi] does not convert. *)
Lemma parse_pair_uncaught k v a x :
  parse_pair k v a = Uncaught x ->
  k = "-node" /\ has_colon v = true /\ Str.stoi (port_part v) = x /\
  forall n, x <> Str.StoiValue n.
Proof.
  unfold parse_pair, has_colon, port_part.
  destruct (String.eqb_spec k "-node") as [-> | _].
  - destruct (Str.find ":" v) as [pos|]; [|discriminate].
    destruct (Str.stoi (Str.substr_from (pos + 1) v)) eqn:Es; try discriminate.
    all: intros H; injection H as <-; repeat split; try reflexivity.
    all: intros n; discriminate.
  - destruct (String.eqb k "-login"); [discriminate|].
    destruct (String.eqb k "-pass"); [discriminate|].
    destruct (String.eqb k "-algo"); discriminate.
Qed.

Lemma parse_tokens_uncaught toks :
  forall a x, parse_tokens toks a = Uncaught x ->
  exists v, In ("-node", v) (pairs toks) /\ has_colon v = true /\
            Str.stoi (port_part v) = x /\ forall n, x <> Str.StoiValue n.
Proof.
  induction toks as [| y | k v rest IH] using pair_ind; intros a x H.
  - discriminate H.
  - discriminate H.
  - cbn [parse_tokens] in H.
    destruct (parse_pair k v a) as [a1 | e | r] eqn:Ep; try discriminate.
    + destruct (IH a1 x H) as (v' & Hin & Hrest). exists v'.
      split; [right; exact Hin | exact Hrest].
    + injection H as ->.
      destruct (parse_pair_uncaught k v a x Ep) as (-> & Hrest).
      exists v. split; [left; reflexivity | exact Hrest].
Qed.

Lemma parse_args_uncaught argv x :
  parse_args argv = Uncaught x ->
  exists v, In ("-node", v) (pairs (tl argv)) /\ has_colon v = true /\
            Str.stoi (port_part v) = x /\ forall n, x <> Str.StoiValue n.
Proof.
  rewrite parse_args_tokens.
  destruct (Nat.ltb (List.length argv) 7); [discriminate|].
  destruct (parse_tokens (tl argv) args0) as [a1 | e | r] eqn:Ep.
  - destruct ((nodePort a1 =? -1) || Str.empty (nodeHost a1)); [discriminate|].
    destruct (negb (String.eqb (algo a1) "C31")
              && negb (String.eqb (algo a1) "C32")); discriminate.
  - discriminate.
  - intros H. injection H as <-. apply (parse_tokens_uncaught _ _ _ Ep).
Qed.

(** C8 (amended): with malformed start-up parameters, the keys and values
    being those of the examined pairs, [main] makes no connect attempt.
    It writes an error line and returns 1, and does nothing else, unless
    it is ended by the exception of [std::stoi]; that happens only at a
    [-node] value with a colon whose port text does not convert, so when
    every such port text converts the error is reported and the status is
    1.  With fewer than 7 arguments the error is the usage line. *)
Theorem malformed_never_connects env argv epochs turns w :
  malformed argv = true ->
  let r := main env argv epochs turns w in
  connects (events r) = [] /\
  ((exists e, parse_args argv = Exit1 e /\
              value r = Returned 1 /\ events r = [EvError e]) \/
   (exists x v,
       value r = Terminated x /\ events r = [] /\
       In ("-node", v) (pairs (tl argv)) /\ has_colon v = true /\
       Str.stoi (port_part v) = x /\ forall n, x <> Str.StoiValue n)) /\
  ((forall v, In ("-node", v) (pairs (tl argv)) -> has_colon v = true ->
              exists n, Str.stoi (port_part v) = Str.StoiValue n) ->
   exists e, value r = Returned 1 /\ events r = [EvError e]) /\
  (too_few argv = true ->
   value r = Returned 1 /\ events r = [EvError (ErrUsage (nth 0 argv ""))]).
Proof.
  intros Hm.
  assert (Hu : too_few argv = true ->
               parse_args argv = Exit1 (ErrUsage (nth 0 argv ""))).
  { unfold too_few, parse_args. intros ->. reflexivity. }
  unfold main.
  destruct (parse_args argv) as [a | e | x] eqn:Ep.
  - rewrite (parse_args_proceed argv a Ep) in Hm. discriminate Hm.
  - cbn. split; [reflexivity|]. split; [left; eauto|]. split; [eauto|].
    intros Hfew. specialize (Hu Hfew). injection Hu as ->.
    split; reflexivity.
  - destruct (parse_args_uncaught argv x Ep) as (v & Hin & Hc & Hs & Hx).
    cbn. split; [reflexivity|]. split.
    + right. exists x, v. repeat split; auto.
    + split.
      * intros Hall. destruct (Hall v Hin Hc) as [n Hn].
        rewrite Hs in Hn. destruct (Hx n Hn).
      * intros Hfew. specialize (Hu Hfew). discriminate Hu.
Qed.

End Startup.

(** * The theorems at concrete inputs *)

Lemma one_submission_per_solved_attempt_witness :
  let tr := events (iteration lucky_env 31 (mkTimers 0 0) world0) in
  In (EvBuildGraph 1) tr /\ (0 < 1)%nat /\
  exists job nonce,
    let sv := env_solver lucky_env in
    let v := calculate_seed_hash sv job nonce in
    jobs_read tr = [job] /\
    nonces_drawn tr = [nonce] /\
    hashes_set tr = [v] /\
    graphs_built tr = [List.length (build_graph sv v)] /\
    submissions tr =
      [Submit 31 job nonce
              (snd (resolve_found_to_nonces sv v (build_graph sv v)))].
Proof.
  assert (H : In (EvBuildGraph 1)
                 (events (iteration lucky_env 31 (mkTimers 0 0) world0))).
  { vm_compute. repeat (first [left; reflexivity | right]). }
  split; [exact H|]. split; [lia|].
  apply (one_submission_per_solved_attempt lucky_env 31 (mkTimers 0 0) world0 1);
    [exact H | lia].
Defined.

Lemma no_submission_without_candidates_witness :
  let tr := events (iteration barren_env 31 (mkTimers 0 0) world0) in
  In (EvBuildGraph 0) tr /\ submissions tr = [].
Proof.
  assert (H : In (EvBuildGraph 0)
                 (events (iteration barren_env 31 (mkTimers 0 0) world0))).
  { vm_compute. repeat (first [left; reflexivity | right]). }
  split; [exact H|].
  apply (no_submission_without_candidates barren_env 31 (mkTimers 0 0) world0 H).
Defined.



(** C3, as stated, fails: a body that reads the clock exactly 20 s after
    the last keep-alive enqueues no keep-alive request. *)
Lemma no_keep_alive_at_20s :
  let w := world_at (seconds 20) in
  let tm := mkTimers 0 0 in
  let r := iteration idle_env 31 tm w in
  clock (tick idle_env w) - last_keep_alive_request_time tm >= seconds 20 /\
  issued is_keep_alive (events r) = [] /\
  requests (events r) = [GetJob] /\
  last_keep_alive_request_time (value r) = 0.
Proof.
  vm_compute. repeat split; try reflexivity. discriminate.
Qed.

Lemma keep_alive_spacing_witness :
  let w := world_at (seconds 21) in
  let tm := mkTimers 0 0 in
  clock (tick idle_env w) - last_keep_alive_request_time tm > seconds 20 /\
  issued is_keep_alive (events (iteration idle_env 31 tm w)) = [seconds 21] /\
  last_keep_alive_request_time (value (iteration idle_env 31 tm w)) = seconds 21.
Proof.
  cbv zeta.
  assert (H : clock (tick idle_env (world_at (seconds 21)))
              - last_keep_alive_request_time (mkTimers 0 0) > seconds 20)
    by (vm_compute; reflexivity).
  split; [exact H|].
  exact (proj1 (keep_alive_spacing idle_env 31 (mkTimers 0 0)
                                   (world_at (seconds 21))) H).
Defined.

Lemma transport_failure_restarts_witness :
  (forall j,
      (calls world0 < j
       < calls (after (from_loop dropping_env 31 2 (mkTimers 0 0) world0)))%nat ->
      env_running dropping_env j = false) /\
  (forall j,
      (calls world0 <= j
       < calls (after (from_loop dropping_env 31 2 (mkTimers 0 0) world0)))%nat ->
      env_sigint dropping_env j = false) /\
  exiting world0 = false /\
  exists body t ok rest,
    (body = [] \/
     body = events (iteration dropping_env 31 (mkTimers 0 0)
                              (tick dropping_env world0))) /\
    (forall job, jobs_read body = [job] ->
       (is_valid job = false ->
        sleeps body = [milliseconds 100] /\ graphs_built body = []) /\
       (is_valid job = true ->
        sleeps body = [] /\ List.length (graphs_built body) = 1%nat)) /\
    value (orchestrator dropping_env 2 31 (mkTimers 0 0) world0) = Left_loop /\
    events (orchestrator dropping_env 2 31 (mkTimers 0 0) world0) = body /\
    events (resume dropping_env args_ok 31 2 1 (mkTimers 0 0) world0) =
      body ++ [EvStopRunning; EvJoinReader; EvJoinWriter;
               EvLog LogConnecting;
               EvConnect t (nodeHost args_ok) (nodePort args_ok) ok] ++ rest.
Proof.
  assert (Hrun : forall j,
             (calls world0 < j
              < calls (after (from_loop dropping_env 31 2 (mkTimers 0 0)
                                        world0)))%nat ->
             env_running dropping_env j = false).
  { intros j [Hj _]. destruct j; [cbn in Hj; lia | reflexivity]. }
  split; [exact Hrun|].
  split; [intros j _; reflexivity|].
  split; [reflexivity|].
  apply (transport_failure_restarts dropping_env args_ok 31 0 0 (mkTimers 0 0)
                                    world0).
  - exact Hrun.
  - intros j _. reflexivity.
  - reflexivity.
Defined.

(** C4, as stated, fails when the transport fails during a solving attempt:
    the flag is false from call 1 on (clock 0), but the loop reaches its
    condition only after the ten minutes of [build_graph] and the
    submission, without any sleep: far later than one polling interval of
    100 ms. *)
Lemma failure_noticed_after_the_solve :
  let r := orchestrator slow_env 2 31 (mkTimers 0 0) world0 in
  (forall j, (0 < j)%nat -> env_running slow_env j = false) /\
  (forall j, env_sigint slow_env j = false) /\
  clock (tick slow_env world0) = 0 /\
  value r = Left_loop /\
  clock (after r) = seconds 600 /\
  milliseconds 100 < clock (after r) - clock (tick slow_env world0) /\
  sleeps (events r) = [] /\
  graphs_built (events r) = [1%nat] /\
  submissions (events r) = [Submit 31 job7 12345 [7; 12345; 0; 0]].
Proof.
  cbv zeta. split; [intros j Hj; destruct j; [lia | reflexivity]|].
  split; [intros j; reflexivity|].
  vm_compute. repeat split; reflexivity.
Qed.

Lemma connect_backoff_witness :
  (forall k, env_connect dead_env k = false) /\
  (forall k, env_sigint dead_env k = false) /\
  exiting world0 = false /\
  value (supervisor dead_env args_ok 31 5 3 world0) = Unfinished /\
  List.length (connects (events (supervisor dead_env args_ok 31 5 3 world0)))
  = 3%nat.
Proof.
  split; [intros k; reflexivity|].
  split; [intros k; reflexivity|].
  split; [reflexivity|].
  apply (proj2 (proj2 (connect_backoff dead_env args_ok 31 5 3 world0)));
    [intros k; reflexivity | intros k; reflexivity | reflexivity].
Defined.

Lemma cancellation_shuts_down_witness :
  cancelled_by interrupted_env 5 world0 /\
  (5 + 1 - calls world0 < 10)%nat /\
  value (supervisor interrupted_env args_ok 31 10 10 world0) = Returned 0 /\
  value (main interrupted_env argv_ok 10 10 world0) = Returned 0.
Proof.
  assert (Hc : cancelled_by interrupted_env 5 world0).
  { right. split; [cbn; lia | reflexivity]. }
  assert (Hk : (5 + 1 - calls world0 < 10)%nat) by (cbn; lia).
  split; [exact Hc|]. split; [exact Hk|].
  destruct (cancellation_shuts_down interrupted_env 5 args_ok 31 10 10
              (mkTimers 0 0) world0 Hc Hk Hk) as (H1 & _ & H3 & _).
  split; [exact H1|]. apply H3. reflexivity.
Defined.

(** C8, as stated, fails: an unknown key as the last, unpaired token is not
    seen; the parameters pass and [main] goes on to connect. *)
Lemma trailing_unknown_key_connects :
  known_key "-bogus" = false /\
  parse_args argv_trailing = Proceed args_ok /\
  connects (events (main idle_env argv_trailing 1 1 world0)) = [(0, true)].
Proof.
  vm_compute. repeat split; reflexivity.
Qed.

Lemma malformed_never_connects_witness :
  malformed ["miner"; "-node"; "127.0.0.1:3416"; "-login"; "alice";
             "-colour"; "blue"; "-algo"; "C31"] = true /\
  connects (events (main idle_env
                      ["miner"; "-node"; "127.0.0.1:3416"; "-login"; "alice";
                       "-colour"; "blue"; "-algo"; "C31"] 1 1 world0)) = [] /\
  exists e,
    value (main idle_env
             ["miner"; "-node"; "127.0.0.1:3416"; "-login"; "alice";
              "-colour"; "blue"; "-algo"; "C31"] 1 1 world0) = Returned 1 /\
    events (main idle_env
              ["miner"; "-node"; "127.0.0.1:3416"; "-login"; "alice";
               "-colour"; "blue"; "-algo"; "C31"] 1 1 world0) = [EvError e].
Proof.
  split; [reflexivity|].
  destruct (malformed_never_connects idle_env
              ["miner"; "-node"; "127.0.0.1:3416"; "-login"; "alice";
               "-colour"; "blue"; "-algo"; "C31"] 1 1 world0 eq_refl)
    as (Hc & _ & Hconv & _).
  split; [exact Hc|]. apply Hconv.
  intros v Hin _. cbn [pairs tl In] in Hin.
  destruct Hin as [Hin | [Hin | [Hin | [Hin | []]]]]; inversion Hin; subst.
  exists 3416. reflexivity.
Defined.

Lemma trailing_token_ignored_witness :
  Nat.even (List.length (argv_ok ++ ["-bogus"])) = true /\
  (8 <= List.length (argv_ok ++ ["-bogus"]))%nat /\
  parse_args (argv_ok ++ ["-bogus"]) = parse_args argv_ok.
Proof.
  split; [reflexivity|]. split; [cbn; lia|].
  apply (trailing_token_ignored argv_ok "-bogus"); [reflexivity | cbn; lia].
Defined.

(** * Runs of the model on small inputs *)

Example stoi_port : Str.stoi "3416" = Str.StoiValue 3416.
Proof. reflexivity. Qed.

Example stoi_space_sign_rest : Str.stoi "  +12abc" = Str.StoiValue 12.
Proof. reflexivity. Qed.

Example stoi_negative : Str.stoi "-1" = Str.StoiValue (-1).
Proof. reflexivity. Qed.

Example stoi_empty : Str.stoi "" = Str.StoiInvalidArgument.
Proof. reflexivity. Qed.

Example stoi_too_big : Str.stoi "2147483648" = Str.StoiOutOfRange.
Proof. reflexivity. Qed.

Example parse_args_ok : parse_args argv_ok = Proceed args_ok.
Proof. reflexivity. Qed.

Example parse_args_too_few :
  parse_args ["miner"; "-node"; "127.0.0.1:3416"; "-algo"; "C31"]
  = Exit1 (ErrUsage "miner").
Proof. reflexivity. Qed.

Example parse_args_no_colon :
  parse_args ["miner"; "-node"; "localhost"; "-login"; "alice"; "-algo"; "C31"]
  = Exit1 ErrInvalidNode.
Proof. reflexivity. Qed.

Example parse_args_no_host :
  parse_args ["miner"; "-node"; ":3416"; "-login"; "alice"; "-algo"; "C31"]
  = Exit1 ErrNodeUndefined.
Proof. reflexivity. Qed.

Example parse_args_no_port :
  parse_args ["miner"; "-node"; "localhost:"; "-login"; "alice"; "-algo"; "C31"]
  = Uncaught Str.StoiInvalidArgument.
Proof. reflexivity. Qed.

Example parse_args_bad_algo :
  parse_args ["miner"; "-node"; "127.0.0.1:3416"; "-login"; "alice"; "-algo"; "C29"]
  = Exit1 ErrInvalidAlgorithm.
Proof. reflexivity. Qed.

(** The scenario of the specification: the node has announced job 7 (height
    100, difficulty 1) and the solver returns one candidate. *)
Example attempt_on_job7 :
  events (iteration lucky_env 31 (mkTimers 0 0) world0) =
  [EvGetActiveJob job7; EvNonce 12345; EvLog (LogStartingJob job7 12345);
   EvSetHash [7; 12345; 0; 0]; EvBuildGraph 1;
   EvLog (LogFound 1 [171]);
   EvEnqueue 0 (Submit 31 job7 12345 [7; 12345; 0; 0])].
Proof. reflexivity. Qed.

Example attempt_without_cycle :
  events (iteration barren_env 31 (mkTimers 0 0) world0) =
  [EvGetActiveJob job7; EvNonce 12345; EvLog (LogStartingJob job7 12345);
   EvSetHash [7; 12345; 0; 0]; EvBuildGraph 0].
Proof. reflexivity. Qed.

(** An interrupted run: the SIGINT comes while the clock is read at line
    141; the inner loop is left at once and [main] returns 0. *)
Example interrupted_run :
  let r := main interrupted_env argv_ok 3 3 world0 in
  value r = Returned 0 /\
  events r =
  [EvLog (LogNode "127.0.0.1" 3416); EvLog (LogLogin "alice");
   EvLog (LogAlgorithm "C31"); EvSignalInstall;
   EvLog LogConnecting; EvConnect 0 "127.0.0.1" 3416 true;
   EvStartReader; EvStartWriter; EvEnqueue 0 (Login "alice" "" true);
   EvStopRunning; EvJoinReader; EvJoinWriter; EvDeleteSolver] /\
  handler_out (after r) = ["Exiting the miner, please wait..."].
Proof. vm_compute. repeat split; reflexivity. Qed.

(** Two refused connections: the second attempt is 30 s after the first. *)
Example refused_twice :
  connects (events (supervisor dead_env args_ok 31 3 2 world0))
  = [(0, false); (seconds 30, false)].
Proof. reflexivity. Qed.

(** * Further properties of the start-up code *)

Section Acceptance.

Lemma stoi_value_range s n :
  Str.stoi s = Str.StoiValue n -> Str.INT_MIN <= n <= Str.INT_MAX.
Proof.
  unfold Str.stoi.
  match goal with
  | |- context [let '(_, _) := ?p in _] => destruct p as [neg s2]
  end.
  destruct s2 as [|c r]; [discriminate|].
  destruct (Str.isdigit c); [|discriminate].
  match goal with
  | |- context [if ?b then Str.StoiOutOfRange else _] => destruct b eqn:E
  end; [discriminate|].
  intros H. injection H as <-.
  apply orb_false_iff in E. destruct E as [E1 E2].
  apply Z.ltb_ge in E1. apply Z.ltb_ge in E2. split; assumption.
Qed.

(** What a turn of the loop that goes on leaves in each local. *)
Lemma parse_pair_fields k v a a1 :
  parse_pair k v a = Proceed a1 ->
  pair_accepted (k, v) = true /\
  loginName a1 = (if String.eqb k "-login" then v else loginName a) /\
  password a1 = (if String.eqb k "-pass" then v else password a) /\
  algo a1 = (if String.eqb k "-algo" then v else algo a) /\
  (if String.eqb k "-node"
   then nodeHost a1 = host_part v /\
        Str.stoi (port_part v) = Str.StoiValue (nodePort a1)
   else nodeHost a1 = nodeHost a /\ nodePort a1 = nodePort a).
Proof.
  unfold parse_pair, pair_accepted, known_key, node_accepted, host_part,
    port_part. cbn [fst snd].
  destruct (String.eqb k "-node") eqn:En.
  - apply String.eqb_eq in En. subst k.
    destruct (Str.find ":" v) as [pos|]; [|discriminate].
    destruct (Str.stoi (Str.substr_from (pos + 1) v)) eqn:Es; try discriminate.
    intros H. injection H as <-. cbn. auto 10.
  - destruct (String.eqb k "-login") eqn:El;
      [|destruct (String.eqb k "-pass") eqn:Ep;
        [|destruct (String.eqb k "-algo") eqn:Ea]]; try discriminate.
    all: intros H; injection H as <-; cbn.
    + apply String.eqb_eq in El. subst k. cbn. auto 10.
    + apply String.eqb_eq in Ep. subst k. cbn. auto 10.
    + auto 10.
Qed.

(** What a loop that goes through leaves in the locals: for each key the
    value given last, and what was there before for a key not given. *)
Lemma parse_tokens_fields toks :
  forall a a', parse_tokens toks a = Proceed a' ->
  let ps := pairs toks in
  forallb pair_accepted ps = true /\
  loginName a' = match last_value "-login" ps with
                 | Some v => v | None => loginName a end /\
  password a' = match last_value "-pass" ps with
                | Some v => v | None => password a end /\
  algo a' = match last_value "-algo" ps with
            | Some v => v | None => algo a end /\
  match last_value "-node" ps with
  | Some v => nodeHost a' = host_part v /\
              Str.stoi (port_part v) = Str.StoiValue (nodePort a')
  | None => nodeHost a' = nodeHost a /\ nodePort a' = nodePort a
  end.
Proof.
  induction toks as [| x | k v rest IH] using pair_ind; intros a a' H.
  - injection H as <-. cbn. auto 10.
  - injection H as <-. cbn. auto 10.
  - cbn [parse_tokens] in H.
    destruct (parse_pair k v a) as [a1 | e | r] eqn:Ep; try discriminate.
    destruct (parse_pair_fields k v a a1 Ep) as (Hacc & Hl & Hp & Ha & Hn).
    destruct (IH a1 a' H) as (I0 & I1 & I2 & I3 & I4).
    cbv zeta. cbn [pairs forallb last_value].
    rewrite Hacc, I0. split; [reflexivity|].
    split; [|split; [|split]].
    + rewrite I1. destruct (last_value "-login" (pairs rest)); [reflexivity|].
      rewrite Hl. destruct (String.eqb k "-login"); reflexivity.
    + rewrite I2. destruct (last_value "-pass" (pairs rest)); [reflexivity|].
      rewrite Hp. destruct (String.eqb k "-pass"); reflexivity.
    + rewrite I3. destruct (last_value "-algo" (pairs rest)); [reflexivity|].
      rewrite Ha. destruct (String.eqb k "-algo"); reflexivity.
    + destruct (last_value "-node" (pairs rest)); [exact I4|].
      destruct I4 as [I4 I5]. rewrite I4, I5.
      destruct (String.eqb k "-node"); exact Hn.
Qed.

(** Parameters pass when the loop goes through and the two checks of
    lines 88-97 hold. *)
Lemma parse_args_passes argv a :
  parse_args argv = Proceed a <->
  (7 <= List.length argv)%nat /\
  parse_tokens (tl argv) args0 = Proceed a /\
  nodePort a <> -1 /\ nodeHost a <> "" /\
  (algo a = "C31" \/ algo a = "C32").
Proof.
  rewrite parse_args_tokens.
  destruct (Nat.ltb_spec (List.length argv) 7) as [Hlen|Hlen].
  { split; [discriminate | intros (H & _); lia]. }
  destruct (parse_tokens (tl argv) args0) as [a1 | e | r] eqn:Ep;
    [|split; [discriminate | intros (_ & H & _); discriminate H]..].
  destruct (Z.eqb_spec (nodePort a1) (-1)) as [Eport|Eport]; cbn [orb].
  { split; [discriminate|].
    intros (_ & H & Hp & _). injection H as <-. contradiction. }
  destruct (nodeHost a1) as [|c h] eqn:Ehost; cbn [Str.empty].
  { split; [discriminate|].
    intros (_ & H & _ & Hh & _). injection H as <-. congruence. }
  destruct (String.eqb_spec (algo a1) "C31") as [E1|E1]; cbn [negb andb].
  { split.
    - intros H. injection H as <-. rewrite Ehost. repeat split; auto.
      discriminate.
    - intros (_ & H & _). exact H. }
  destruct (String.eqb_spec (algo a1) "C32") as [E2|E2]; cbn [negb].
  { split.
    - intros H. injection H as <-. rewrite Ehost. repeat split; auto.
      discriminate.
    - intros (_ & H & _). exact H. }
  split; [discriminate|].
  intros (_ & H & _ & _ & [Ha | Ha]); injection H as <-; contradiction.
Qed.

(** X2: The parameters [main] goes on with: an argument count of at least 7,
    a host that is not empty, a port that fits an [int] and is not -1, and
    one of the two algorithms. *)
Theorem accepted_parameters_valid argv a :
  parse_args argv = Proceed a ->
  (7 <= List.length argv)%nat /\
  nodeHost a <> "" /\
  nodePort a <> -1 /\
  Str.INT_MIN <= nodePort a <= Str.INT_MAX /\
  (algo a = "C31" \/ algo a = "C32").
Proof.
  intros H. apply parse_args_passes in H.
  destruct H as (Hlen & Ep & Hport & Hhost & Halgo).
  destruct (parse_tokens_fields _ _ _ Ep) as (_ & _ & _ & _ & Hn).
  repeat (split; [assumption|]). split; [|exact Halgo].
  destruct (last_value "-node" (pairs (tl argv))).
  - destruct Hn as [_ Hs]. apply stoi_value_range in Hs. exact Hs.
  - destruct Hn as [_ Hp]. cbn in Hp. contradiction.
Qed.

(** X3: For a key given more than once the value given last counts; a login
    name or a password that is not given is empty, and [main] goes on with
    it: [-login] is not required. *)
Theorem last_value_counts argv a :
  parse_args argv = Proceed a ->
  let ps := pairs (tl argv) in
  loginName a = value_or_empty "-login" ps /\
  password a = value_or_empty "-pass" ps /\
  last_value "-algo" ps = Some (algo a) /\
  exists v,
    last_value "-node" ps = Some v /\
    nodeHost a = host_part v /\
    Str.stoi (port_part v) = Str.StoiValue (nodePort a).
Proof.
  intros H. apply parse_args_passes in H.
  destruct H as (_ & Ep & Hport & _ & Halgo).
  destruct (parse_tokens_fields _ _ _ Ep) as (_ & Hl & Hp & Ha & Hn).
  cbv zeta. unfold value_or_empty.
  split; [exact Hl|]. split; [exact Hp|]. split.
  - destruct (last_value "-algo" (pairs (tl argv))); [rewrite Ha; reflexivity|].
    cbn in Ha. destruct Halgo as [E | E]; rewrite E in Ha; discriminate Ha.
  - destruct (last_value "-node" (pairs (tl argv))) as [v|].
    + exists v. destruct Hn. auto.
    + destruct Hn as [_ Hn]. cbn in Hn. contradiction.
Qed.

(** A loop all of whose pairs are accepted goes through. *)
Lemma parse_tokens_goes_through toks :
  forall a, forallb pair_accepted (pairs toks) = true ->
            exists a', parse_tokens toks a = Proceed a'.
Proof.
  induction toks as [| x | k v rest IH] using pair_ind; intros a H.
  - exists a. reflexivity.
  - exists a. reflexivity.
  - cbn [pairs forallb] in H. apply andb_true_iff in H. destruct H as [Hkv Hrest].
    cbn [parse_tokens].
    assert (Hp : exists a1, parse_pair k v a = Proceed a1).
    { unfold pair_accepted, known_key, node_accepted in Hkv. cbn [fst snd] in Hkv.
      unfold parse_pair.
      destruct (String.eqb k "-node").
      - destruct (Str.find ":" v); [|discriminate Hkv].
        destruct (Str.stoi _); try discriminate Hkv. eauto.
      - destruct (String.eqb k "-login"); [eauto|].
        destruct (String.eqb k "-pass"); [eauto|].
        destruct (String.eqb k "-algo"); [eauto | discriminate Hkv]. }
    destruct Hp as [a1 Hp]. rewrite Hp. apply IH, Hrest.
Qed.

(** X1: The parser accepts exactly the well-formed command lines: at least 7
    arguments, every examined pair with a known key and, for [-node], a
    value with a colon and a port text that converts, the last [-node] with
    a host and a port other than -1, the last [-algo] C31 or C32. *)
Theorem accepts_well_formed argv :
  (exists a, parse_args argv = Proceed a) <-> well_formed argv = true.
Proof.
  unfold well_formed, too_few, node_defined, algo_supported. split.
  - intros [a H]. apply parse_args_passes in H.
    destruct H as (Hlen & Ep & Hport & Hhost & Halgo).
    destruct (parse_tokens_fields _ _ _ Ep) as (Hacc & _ & _ & Ha & Hn).
    cbv zeta in *. rewrite Hacc.
    destruct (Nat.ltb_spec (List.length argv) 7); [lia|]. cbn [negb andb].
    destruct (last_value "-node" (pairs (tl argv))) as [v|].
    + destruct Hn as [Hh Hs]. rewrite <- Hh, Hs.
      destruct (nodeHost a); [contradiction|]. cbn [Str.empty negb andb].
      destruct (Z.eqb_spec (nodePort a) (-1)); [contradiction|].
      cbn [negb andb].
      destruct (last_value "-algo" (pairs (tl argv))) as [x|].
      * rewrite <- Ha. destruct Halgo as [-> | ->]; reflexivity.
      * cbn in Ha. destruct Halgo as [E | E]; rewrite E in Ha; discriminate Ha.
    + destruct Hn as [_ Hp]. cbn in Hp. contradiction.
  - intros H. cbv zeta in H.
    apply andb_true_iff in H. destruct H as [H Halgo].
    apply andb_true_iff in H. destruct H as [H Hnode].
    apply andb_true_iff in H. destruct H as [Hlen Hacc].
    destruct (parse_tokens_goes_through (tl argv) args0 Hacc) as [a Ep].
    exists a. apply parse_args_passes.
    destruct (parse_tokens_fields _ _ _ Ep) as (_ & _ & _ & Ha & Hn).
    cbv zeta in *.
    destruct (Nat.ltb_spec (List.length argv) 7); [discriminate Hlen|].
    split; [assumption|]. split; [exact Ep|].
    destruct (last_value "-node" (pairs (tl argv))) as [v|];
      [|discriminate Hnode].
    destruct Hn as [Hh Hs]. rewrite Hs, <- Hh in Hnode.
    apply andb_true_iff in Hnode. destruct Hnode as [Hhost Hport].
    split.
    { intros E. rewrite E in Hport. discriminate Hport. }
    split.
    { intros E. rewrite E in Hhost. discriminate Hhost. }
    destruct (last_value "-algo" (pairs (tl argv))) as [x|];
      [|discriminate Halgo].
    rewrite Ha. apply orb_true_iff in Halgo.
    destruct Halgo as [E | E]; apply String.eqb_eq in E; auto.
Qed.

End Acceptance.

Section NodeValue.

Lemma find_first_colon h p :
  Str.find ":" h = None ->
  Str.find ":" (String.append h (String ":" p)) = Some (String.length h).
Proof.
  induction h as [|c h IH]; intros H.
  - reflexivity.
  - cbn [Str.find String.append String.length] in *.
    destruct (Ascii.eqb c ":"); [discriminate H|].
    destruct (Str.find ":" h); [discriminate H|].
    rewrite IH by reflexivity. reflexivity.
Qed.

Lemma substr_from_after h p :
  Str.substr_from (String.length h + 1) (String.append h (String ":" p)) = p.
Proof.
  rewrite Nat.add_1_r. induction h as [|c h IH]; [reflexivity|].
  cbn [String.length String.append Str.substr_from]. exact IH.
Qed.

Lemma substr_to_before h x :
  Str.substr_to (String.length h) (String.append h x) = h.
Proof.
  unfold Str.substr_to. induction h as [|c h IH].
  - destruct x; reflexivity.
  - cbn [String.length String.append String.substring]. rewrite IH.
    reflexivity.
Qed.

(** X4: A [-node] value is cut at its first colon: the host is the text before
    it, whatever it is, and the port is what [std::stoi] reads from all of
    the text after it; a port text that does not convert ends the program
    with the exception. *)
Theorem node_value_split h p a :
  Str.find ":" h = None ->
  parse_pair "-node" (String.append h (String ":" p)) a =
  match Str.stoi p with
  | Str.StoiValue n => Proceed (mkArgs h n (loginName a) (password a) (algo a))
  | r => Uncaught r
  end.
Proof.
  intros H. unfold parse_pair. cbn [String.eqb Ascii.eqb Bool.eqb].
  rewrite (find_first_colon h p H), substr_from_after, substr_to_before.
  destruct (Str.stoi p); reflexivity.
Qed.

Lemma read_digits_rest ds c rest :
  all_digits ds = true -> Str.isdigit c = false ->
  forall acc,
    Str.read_digits (String.append ds (String c rest)) acc
    = Str.read_digits ds acc.
Proof.
  intros Hds Hc. induction ds as [|d ds IH]; intros acc.
  - cbn [String.append Str.read_digits]. rewrite Hc. reflexivity.
  - cbn [all_digits] in Hds. apply andb_true_iff in Hds. destruct Hds as [Hd Hr].
    cbn [String.append Str.read_digits]. rewrite Hd. apply IH, Hr.
Qed.

(** [std::stoi] on a text that starts with a digit. *)
Lemma stoi_digit_first d s :
  Str.isdigit d = true ->
  Str.stoi (String d s) =
  if (Str.read_digits (String d s) 0 <? Str.INT_MIN)
     || (Str.INT_MAX <? Str.read_digits (String d s) 0)
  then Str.StoiOutOfRange
  else Str.StoiValue (Str.read_digits (String d s) 0).
Proof.
  intros Hd.
  destruct d as [[] [] [] [] [] [] [] []]; try discriminate Hd.
  all: reflexivity.
Qed.

(** X5: The port is read from the leading digits: what follows them in the
    text, from the first character that is not a digit, changes nothing. *)
Theorem port_text_rest_ignored ds c rest :
  all_digits ds = true -> ds <> "" -> Str.isdigit c = false ->
  Str.stoi (String.append ds (String c rest)) = Str.stoi ds.
Proof.
  intros Hds Hne Hc. destruct ds as [|d ds]; [contradiction|].
  pose proof Hds as Hd. cbn [all_digits] in Hd.
  apply andb_true_iff in Hd. destruct Hd as [Hd _].
  cbn [String.append].
  rewrite !(stoi_digit_first d) by exact Hd.
  change (String d (String.append ds (String c rest)))
    with (String.append (String d ds) (String c rest)).
  rewrite (read_digits_rest (String d ds) c rest Hds Hc). reflexivity.
Qed.

End NodeValue.

(** * Further properties of the session *)

Section Runs.

Variable env : Env.

(** The two shapes of an epoch: a refused connection and the backoff, or
    the start of a session, the inner loop, and the end of the session
    when the loop is left. *)
Lemma epoch_shape a eb turns w :
  (value (epoch env a eb turns w) = Left_loop /\
   exists t,
     events (epoch env a eb turns w) =
     [EvLog LogConnecting; EvConnect t (nodeHost a) (nodePort a) false;
      EvLog LogUnableConnect; EvSleep (seconds 30)]) \/
  (exists t t1 tm w0 tail,
     events (epoch env a eb turns w) =
     [EvLog LogConnecting; EvConnect t (nodeHost a) (nodePort a) true;
      EvStartReader; EvStartWriter;
      EvEnqueue t1 (Login (loginName a) (password a) true)]
       ++ events (orchestrator env turns eb tm w0) ++ tail /\
     ((value (epoch env a eb turns w) = Left_loop /\
       tail = [EvStopRunning; EvJoinReader; EvJoinWriter]) \/
      (value (epoch env a eb turns w) = Out_of_turns /\ tail = []))).
Proof.
  destruct (env_connect env (calls (tick env w))) eqn:E.
  - right. rewrite (epoch_connected env a eb turns w E). cbv zeta.
    rewrite value_mk, events_mk, from_loop_eq.
    match goal with
    | |- context [orchestrator env turns eb ?tm ?w1] =>
        destruct (value (orchestrator env turns eb tm w1));
        rewrite value_mk, events_mk;
        eexists; eexists; exists tm, w1; eexists
    end.
    + split; [reflexivity|]. left. split; reflexivity.
    + split; [rewrite app_nil_r; reflexivity|]. right. split; reflexivity.
  - left. rewrite (epoch_failed env a eb turns w E). split; [reflexivity|].
    eexists. reflexivity.
Qed.

(** A property of events that holds of the events of the outer loop and of
    those of every body holds of every event of a run. *)
Lemma supervisor_forall (Q : event -> Prop) a eb :
  (forall tm w, Forall Q (events (iteration env eb tm w))) ->
  (forall t ok, Q (EvConnect t (nodeHost a) (nodePort a) ok)) ->
  (forall t, Q (EvEnqueue t (Login (loginName a) (password a) true))) ->
  Forall Q [EvLog LogConnecting; EvLog LogUnableConnect; EvSleep (seconds 30);
            EvStartReader; EvStartWriter; EvStopRunning; EvJoinReader;
            EvJoinWriter; EvDeleteSolver] ->
  forall turns epochs w,
    Forall Q (events (supervisor env a eb turns epochs w)).
Proof.
  intros Hbody Hconn Hlogin Hfixed turns.
  assert (Hq : forall e,
             In e [EvLog LogConnecting; EvLog LogUnableConnect;
                   EvSleep (seconds 30); EvStartReader; EvStartWriter;
                   EvStopRunning; EvJoinReader; EvJoinWriter; EvDeleteSolver] ->
             Q e).
  { apply Forall_forall, Hfixed. }
  assert (Hloop : forall n tm w,
             Forall Q (events (orchestrator env n eb tm w))).
  { intros n tm w. revert tm w.
    induction n as [|n IH]; intros tm w; [constructor|].
    rewrite orchestrator_step.
    destruct (env_running env (calls w) && negb (exiting (tick env w)));
      [|constructor].
    cbv zeta. rewrite events_mk. apply Forall_app. split; [apply Hbody | apply IH]. }
  assert (Hepoch : forall w, Forall Q (events (epoch env a eb turns w))).
  { intros w.
    destruct (epoch_shape a eb turns w)
      as [(_ & t & ->) | (t & t1 & tm & w0 & tail & -> & Htail)].
    - repeat constructor; try apply Hconn; apply Hq; cbn; tauto.
    - apply Forall_app. split.
      + repeat constructor; try apply Hconn; try apply Hlogin;
          apply Hq; cbn; tauto.
      + apply Forall_app. split; [apply Hloop|].
        destruct Htail as [(_ & ->) | (_ & ->)]; repeat constructor;
          apply Hq; cbn; tauto. }
  induction epochs as [|epochs IH]; intros w; [constructor|].
  rewrite supervisor_step. destruct (exiting w).
  - rewrite events_mk. repeat constructor. apply Hq. cbn. tauto.
  - destruct (value (epoch env a eb turns w)); rewrite events_mk.
    + apply Forall_app. split; [apply Hepoch | apply IH].
    + apply Hepoch.
Qed.

Lemma main_forall (Q : event -> Prop) argv a epochs turns w :
  parse_args argv = Proceed a ->
  Forall Q [EvLog (LogNode (nodeHost a) (nodePort a));
            EvLog (LogLogin (loginName a)); EvLog (LogAlgorithm (algo a));
            EvSignalInstall] ->
  Forall Q (events (supervisor env a (edge_bits_of (algo a)) turns epochs w)) ->
  Forall Q (events (main env argv epochs turns w)).
Proof.
  intros H Hstart Hsup.
  rewrite (proj2 (main_proceeds env argv a epochs turns w H)).
  apply Forall_app. split; assumption.
Qed.

Lemma body_nonces_in_range eb tm w :
  Forall nonce_in_range (events (iteration env eb tm w)).
Proof.
  assert (Hn : forall k,
             0 <= env_nonce env k mod (UINT64_MAX + 1) <= UINT64_MAX).
  { intros k.
    pose proof (Z.mod_pos_bound (env_nonce env k) (UINT64_MAX + 1)) as H.
    unfold UINT64_MAX in *. lia. }
  unfold iteration.
  run_cases; repeat (apply Forall_cons || apply Forall_nil);
    try exact I; apply Hn.
Qed.

(** Every nonce of a run is a [uint64_t]: the one drawn, the one on the
    job line and the one of every submission. *)
Theorem nonces_are_uint64 argv epochs turns w :
  Forall nonce_in_range (events (main env argv epochs turns w)).
Proof.
  destruct (parse_args argv) as [a | e | x] eqn:Ep.
  - apply (main_forall nonce_in_range argv a epochs turns w Ep).
    + repeat constructor.
    + apply supervisor_forall; intros; try exact I.
      * apply body_nonces_in_range.
      * repeat constructor.
  - unfold main. rewrite Ep. repeat constructor.
  - unfold main. rewrite Ep. constructor.
Qed.

Lemma body_edge_bits a eb tm w :
  (a = "C31" /\ eb = 31) \/ (a = "C32" /\ eb = 32) ->
  Forall (edge_bits_match a) (events (iteration env eb tm w)).
Proof.
  intros H. unfold iteration.
  run_cases; repeat (apply Forall_cons || apply Forall_nil);
    try exact I; exact H.
Qed.

(** X7: Every submission of a run carries the edge bits of the algorithm
    chosen on the command line: 31 for C31, 32 for C32. *)
Theorem submissions_carry_edge_bits argv a epochs turns w :
  parse_args argv = Proceed a ->
  Forall (edge_bits_match (algo a)) (events (main env argv epochs turns w)).
Proof.
  intros Ep.
  assert (Ha : (algo a = "C31" /\ edge_bits_of (algo a) = 31) \/
               (algo a = "C32" /\ edge_bits_of (algo a) = 32)).
  { apply parse_args_passes in Ep. destruct Ep as (_ & _ & _ & _ & [E | E]);
      rewrite E; [left | right]; split; reflexivity. }
  apply (main_forall (edge_bits_match (algo a)) argv a epochs turns w Ep).
  - repeat constructor.
  - apply supervisor_forall; intros; try exact I.
    + apply body_edge_bits, Ha.
    + repeat constructor.
Qed.

End Runs.

Section Sessions.

Variable env : Env.

Lemma count_app p (t1 t2 : list event) :
  count p (t1 ++ t2) = (count p t1 + count p t2)%nat.
Proof. unfold count. rewrite filter_app, length_app. reflexivity. Qed.

Lemma tally_app t1 t2 c1 m1 c2 m2 :
  tally t1 c1 m1 -> tally t2 c2 m2 -> tally (t1 ++ t2) (c1 + c2) (m1 + m2).
Proof.
  unfold tally. intros (A1 & A2 & A3 & A4 & A5 & A6 & A7)
                       (B1 & B2 & B3 & B4 & B5 & B6 & B7).
  rewrite !count_app. repeat split; congruence.
Qed.

Lemma body_no_session_event eb tm w :
  Forall (fun e => session_event e = false) (events (iteration env eb tm w)).
Proof.
  unfold iteration.
  run_cases; repeat (apply Forall_cons || apply Forall_nil); reflexivity.
Qed.

Lemma loop_no_session_event turns eb tm w :
  Forall (fun e => session_event e = false)
         (events (orchestrator env turns eb tm w)).
Proof.
  apply (orchestrator_events_ind env
           (fun tr => Forall (fun e => session_event e = false) tr)).
  - constructor.
  - intros t1 t2 H1 H2. apply Forall_app. auto.
  - apply body_no_session_event.
Qed.

Lemma count_none p tr :
  (forall e, p e = true -> session_event e = true) ->
  Forall (fun e => session_event e = false) tr -> count p tr = 0%nat.
Proof.
  intros Hp H. unfold count. induction H as [|e tr He _ IH]; [reflexivity|].
  cbn [filter]. destruct (p e) eqn:E; [|exact IH].
  apply Hp in E. congruence.
Qed.

Lemma loop_tally turns eb tm w :
  tally (events (orchestrator env turns eb tm w)) 0 0.
Proof.
  pose proof (loop_no_session_event turns eb tm w) as H.
  unfold tally. repeat split; apply count_none; try exact H.
  all: intros [] E; try discriminate E; try reflexivity.
  all: destruct r; try discriminate E; try reflexivity.
  all: destruct ok; try discriminate E; reflexivity.
Qed.

Lemma loop_never_deletes turns eb tm w :
  count is_delete_solver (events (orchestrator env turns eb tm w)) = 0%nat.
Proof.
  apply count_none; [|apply loop_no_session_event].
  intros [] E; try discriminate E. reflexivity.
Qed.

(** The connections and session ends of one epoch. *)
Lemma epoch_tally a eb turns w :
  exists c m,
    tally (events (epoch env a eb turns w)) c m /\
    count is_delete_solver (events (epoch env a eb turns w)) = 0%nat /\
    (m <= c <= 1)%nat /\
    (value (epoch env a eb turns w) = Left_loop -> m = c).
Proof.
  destruct (epoch_shape env a eb turns w)
    as [(Hv & t & ->) | (t & t1 & tm & w0 & tail & -> & Htail)].
  - exists 0%nat, 0%nat. repeat split; lia.
  - pose proof (loop_tally turns eb tm w0) as Hl.
    pose proof (loop_never_deletes turns eb tm w0) as Hd.
    destruct Htail as [(Hv & ->) | (Hv & ->)].
    + exists 1%nat, 1%nat. split.
      * apply (tally_app _ _ 1 0 0 1); [repeat split|].
        apply (tally_app _ _ 0 0 0 1); [exact Hl | repeat split].
      * rewrite !count_app, Hd. repeat split; lia.
    + exists 1%nat, 0%nat. split.
      * apply (tally_app _ _ 1 0 0 0); [repeat split|].
        apply (tally_app _ _ 0 0 0 0); [exact Hl | repeat split].
      * rewrite !count_app, Hd. repeat split; try lia.
        rewrite Hv. discriminate.
Qed.

(** X8: In every run each connection made has its reader thread, its writer
    thread and its login, and each session ended has its [stop_running]
    and its two joins; at most one session is open at any time, and none
    when [main] returns: every thread started has been joined. *)
Theorem sessions_balanced a eb turns epochs w :
  let r := supervisor env a eb turns epochs w in
  exists c m,
    tally (events r) c m /\
    (m <= c <= m + 1)%nat /\
    (forall code, value r = Returned code -> m = c).
Proof.
  cbv zeta. revert w. induction epochs as [|epochs IH]; intros w.
  - exists 0%nat, 0%nat. repeat split; try lia; try discriminate.
  - rewrite supervisor_step. destruct (exiting w).
    + exists 0%nat, 0%nat. repeat split; try lia; try discriminate.
    + destruct (epoch_tally a eb turns w) as (c & m & Ht & _ & Hcm & Hleft).
      destruct (value (epoch env a eb turns w)) eqn:Ev;
        rewrite value_mk, events_mk.
      * destruct (IH (after (epoch env a eb turns w)))
          as (c' & m' & Ht' & Hcm' & Hret).
        specialize (Hleft eq_refl). subst m.
        exists (c + c')%nat, (c + m')%nat.
        split; [apply tally_app; assumption|]. split; [lia|].
        intros code Hc. rewrite (Hret code Hc). reflexivity.
      * exists c, m. split; [exact Ht|]. split; [lia | discriminate].
Qed.

(** X9: The solver is deleted once, as the last thing before [main] returns 0,
    and not at all in a run that has not come to its end. *)
Theorem solver_deleted_on_return a eb turns epochs w :
  let r := supervisor env a eb turns epochs w in
  (value r = Returned 0 /\
   exists tr, events r = tr ++ [EvDeleteSolver] /\
              count is_delete_solver tr = 0%nat) \/
  (value r = Unfinished /\ count is_delete_solver (events r) = 0%nat).
Proof.
  cbv zeta. revert w. induction epochs as [|epochs IH]; intros w.
  - right. split; reflexivity.
  - rewrite supervisor_step. destruct (exiting w).
    + left. split; [reflexivity|]. exists []. split; reflexivity.
    + destruct (epoch_tally a eb turns w) as (c & m & _ & Hd & _).
      destruct (value (epoch env a eb turns w));
        rewrite value_mk, events_mk.
      * destruct (IH (after (epoch env a eb turns w)))
          as [(Hv & tr & -> & Htr) | (Hv & Hn)].
        -- left. split; [exact Hv|].
           exists (events (epoch env a eb turns w) ++ tr).
           split; [apply app_assoc|]. rewrite count_app. lia.
        -- right. split; [exact Hv|]. rewrite count_app. lia.
      * right. split; [reflexivity | exact Hd].
Qed.

End Sessions.

Section Outcomes.

Variable env : Env.

Lemma sigint_search a b :
  (forall j, (a <= j < b)%nat -> env_sigint env j = false) \/
  (exists k, (a <= k < b)%nat /\ env_sigint env k = true).
Proof.
  induction b as [|b [IH | (k & Hk & Hs)]].
  - left. intros j Hj. lia.
  - destruct (env_sigint env b) eqn:E.
    + destruct (Nat.le_gt_cases a b) as [Hab | Hab].
      * right. exists b. split; [lia | exact E].
      * left. intros j Hj. lia.
    + left. intros j Hj. destruct (Nat.eq_dec j b) as [-> | Hne]; [exact E|].
      apply IH. lia.
  - right. exists k. split; [lia | exact Hs].
Qed.

(** [exiting] does not get set without a SIGINT. *)
Lemma sigint_behind_exiting w w' :
  evolves env w w' -> exiting w = false -> exiting w' = true ->
  exists k, (calls w <= k < calls w')%nat /\ env_sigint env k = true.
Proof.
  intros (_ & _ & _ & Hq & _) Hw Hw'.
  destruct (sigint_search (calls w) (calls w')) as [Hnone | Hsome];
    [|exact Hsome].
  rewrite (Hq Hnone) in Hw'. congruence.
Qed.

Lemma main_after argv a epochs turns w :
  parse_args argv = Proceed a ->
  after (main env argv epochs turns w)
  = after (supervisor env a (edge_bits_of (algo a)) turns epochs w).
Proof.
  intros H. unfold main. rewrite H. unfold miner. cbn.
  destruct (supervisor env a (edge_bits_of (algo a)) turns epochs w)
    as [[o w1] t1].
  reflexivity.
Qed.

(** X10: How [main] can end, started with [exiting] not set.  It returns 1
    exactly when the start-up code reports an error, and then it has done
    nothing else; it is ended by the exception exactly when [std::stoi]
    throws; it returns 0 only with parameters that pass and after a SIGINT
    has come with one of its calls; it returns nothing else. *)
Theorem main_outcomes argv epochs turns w :
  exiting w = false ->
  let r := main env argv epochs turns w in
  match value r with
  | Returned code =>
      (code = 1 /\ exists e, parse_args argv = Exit1 e /\
                             events r = [EvError e] /\ after r = w) \/
      (code = 0 /\ (exists a, parse_args argv = Proceed a) /\
       exists k, (calls w <= k < calls (after r))%nat /\
                 env_sigint env k = true)
  | Terminated x => parse_args argv = Uncaught x /\ events r = [] /\ after r = w
  | Unfinished => exists a, parse_args argv = Proceed a
  end.
Proof.
  intros Hw. cbv zeta.
  destruct (parse_args argv) as [a | e | x] eqn:Ep.
  - rewrite (proj1 (main_proceeds env argv a epochs turns w Ep)).
    rewrite (main_after argv a epochs turns w Ep).
    destruct (value (supervisor env a (edge_bits_of (algo a)) turns epochs w))
      as [code | x |] eqn:Ev.
    + destruct (supervisor_returns_when_exiting env a _ turns epochs w code Ev)
        as [-> Hex].
      right. split; [reflexivity|]. split; [eauto|].
      apply (sigint_behind_exiting w); [apply evolves_supervisor | exact Hw | exact Hex].
    + exfalso. revert Ev. clear. revert w.
      induction epochs as [|epochs IH]; intros w; [discriminate|].
      rewrite supervisor_step. destruct (exiting w); [discriminate|].
      destruct (value (epoch env a (edge_bits_of (algo a)) turns w));
        rewrite value_mk; [apply IH | discriminate].
    + eauto.
  - unfold main. rewrite Ep. cbn. left. split; [reflexivity|]. eauto.
  - unfold main. rewrite Ep. cbn. auto.
Qed.

End Outcomes.

Section Bodies.

Variable env : Env.

Ltac clock_facts :=
  repeat match goal with
         | |- context [tick env ?x] =>
             lazymatch goal with
             | _ : clock x <= clock (tick env x) |- _ => fail
             | _ => pose proof (clock_tick env x)
             end
         end.

(** X11: Every body of the inner loop reads the job once.  Without a valid job
    it sleeps 100 ms, once, and leaves the solver and the generator alone;
    with a valid job it runs the solver once and returns to the condition
    without a sleep and without asking for a job, and the get-job timer
    is left as it was. *)
Theorem body_idles_or_solves eb tm w :
  let r := iteration env eb tm w in
  exists job,
    jobs_read (events r) = [job] /\
    (is_valid job = false ->
     sleeps (events r) = [milliseconds 100] /\
     nonces_drawn (events r) = [] /\
     hashes_set (events r) = [] /\
     graphs_built (events r) = [] /\
     submissions (events r) = [] /\
     solver_hash (after r) = solver_hash w) /\
    (is_valid job = true ->
     sleeps (events r) = [] /\
     issued is_get_job (events r) = [] /\
     List.length (nonces_drawn (events r)) = 1%nat /\
     List.length (graphs_built (events r)) = 1%nat /\
     last_get_job_request_time (value r) = last_get_job_request_time tm).
Proof.
  unfold iteration. run_cases; eexists; (split; [reflexivity|]).
  all: split; intros Hv; try (rewrite Hv in *; discriminate).
  all: unfold after; cbn [fst snd]; unfold asleep; cbn [solver_hash];
    rewrite ?solver_hash_tick; repeat split; reflexivity.
Qed.

Lemma idle_body_takes_100ms eb tm w :
  (forall k, is_valid (env_job env k) = false) ->
  List.length (jobs_read (events (iteration env eb tm w))) = 1%nat /\
  clock w + milliseconds 100 <= clock (after (iteration env eb tm w)).
Proof.
  intros Hjob. unfold iteration. run_cases.
  all: try match goal with
           | E : negb (is_valid _) = false |- _ =>
               rewrite Hjob in E; discriminate E
           end.
  all: split; [reflexivity|].
  all: unfold after; cbn [fst snd]; unfold asleep; cbn [clock];
    clock_facts; lia.
Qed.

(** X12: While no job is available the inner loop reads the job slot at most
    once every 100 ms: [n] reads take at least [n] times 100 ms of the
    steady clock. *)
Theorem idle_polling_paced turns eb tm w :
  (forall k, is_valid (env_job env k) = false) ->
  let r := orchestrator env turns eb tm w in
  clock w
  + milliseconds 100 * Z.of_nat (List.length (jobs_read (events r)))
  <= clock (after r).
Proof.
  intros Hjob. cbv zeta. revert tm w.
  induction turns as [|turns IH]; intros tm w.
  - cbn. lia.
  - rewrite orchestrator_step. pose proof (clock_tick env w) as Ht.
    destruct (env_running env (calls w) && negb (exiting (tick env w))).
    + cbv zeta. rewrite events_mk, after_mk.
      destruct (idle_body_takes_100ms eb tm (tick env w) Hjob) as [Hn Hc].
      specialize (IH (value (iteration env eb tm (tick env w)))
                     (after (iteration env eb tm (tick env w)))).
      unfold jobs_read in *. rewrite flat_map_app, length_app, Hn.
      rewrite Nat2Z.inj_add. change (Z.of_nat 1) with 1. lia.
    + rewrite events_mk, after_mk. cbn. lia.
Qed.

End Bodies.

Section Endpoint.

Variable env : Env.

Lemma body_uses_parameters a eb tm w :
  Forall (uses_parameters a) (events (iteration env eb tm w)).
Proof.
  unfold iteration.
  run_cases; repeat (apply Forall_cons || apply Forall_nil); exact I.
Qed.

(** X6: Every connect attempt of a run, the first and every reconnect, goes to
    the host and the port of the command line, and every login carries its
    name and its password: the last values given with [-node], [-login]
    and [-pass]. *)
Theorem reconnects_to_same_node argv a epochs turns w :
  parse_args argv = Proceed a ->
  Forall (uses_parameters a) (events (main env argv epochs turns w)) /\
  nodeHost a = host_part (value_or_empty "-node" (pairs (tl argv))) /\
  loginName a = value_or_empty "-login" (pairs (tl argv)) /\
  password a = value_or_empty "-pass" (pairs (tl argv)).
Proof.
  intros Ep. split.
  - apply (main_forall env (uses_parameters a) argv a epochs turns w Ep).
    + repeat constructor.
    + apply supervisor_forall; intros; try (cbn; auto; fail).
      * apply body_uses_parameters.
      * repeat constructor.
  - apply parse_args_passes in Ep. destruct Ep as (_ & Ep & _).
    destruct (parse_tokens_fields _ _ _ Ep) as (_ & Hl & Hp & _ & Hn).
    cbv zeta in *. unfold value_or_empty.
    split; [|split; [exact Hl | exact Hp]].
    destruct (last_value "-node" (pairs (tl argv))); [apply Hn|].
    destruct Hn as [Hn _]. rewrite Hn. reflexivity.
Qed.

End Endpoint.

(** * The further properties at concrete inputs *)

Definition argv_twice : list string :=
  ["miner"; "-algo"; "C31"; "-node"; "a:1"; "-pass"; "x";
   "-node"; "node.example:3416 tcp"; "-algo"; "C32"].

Lemma accepted_parameters_valid_witness :
  parse_args argv_twice = Proceed (mkArgs "node.example" 3416 "" "x" "C32") /\
  nodePort (mkArgs "node.example" 3416 "" "x" "C32") <> -1 /\
  (algo (mkArgs "node.example" 3416 "" "x" "C32") = "C31" \/
   algo (mkArgs "node.example" 3416 "" "x" "C32") = "C32").
Proof.
  assert (H : parse_args argv_twice
              = Proceed (mkArgs "node.example" 3416 "" "x" "C32"))
    by reflexivity.
  split; [exact H|].
  destruct (accepted_parameters_valid argv_twice _ H) as (_ & _ & Hp & _ & Ha).
  split; [exact Hp | exact Ha].
Defined.

Lemma last_value_counts_witness :
  parse_args argv_twice = Proceed (mkArgs "node.example" 3416 "" "x" "C32") /\
  loginName (mkArgs "node.example" 3416 "" "x" "C32")
  = value_or_empty "-login" (pairs (tl argv_twice)) /\
  last_value "-algo" (pairs (tl argv_twice)) = Some "C32".
Proof.
  assert (H : parse_args argv_twice
              = Proceed (mkArgs "node.example" 3416 "" "x" "C32"))
    by reflexivity.
  split; [exact H|].
  destruct (last_value_counts argv_twice _ H) as (Hl & _ & Ha & _).
  split; [exact Hl | exact Ha].
Defined.

Lemma node_value_split_witness :
  Str.find ":" "node.example" = None /\
  parse_pair "-node" "node.example:3416:9" args0
  = Proceed (mkArgs "node.example" 3416 "" "" "").
Proof.
  split; [reflexivity|].
  apply (node_value_split "node.example" "3416:9" args0). reflexivity.
Defined.

Lemma port_text_rest_ignored_witness :
  all_digits "3416" = true /\ "3416" <> "" /\ Str.isdigit "/" = false /\
  Str.stoi "3416/tcp" = Str.stoi "3416".
Proof.
  split; [reflexivity|]. split; [discriminate|]. split; [reflexivity|].
  apply (port_text_rest_ignored "3416" "/" "tcp");
    [reflexivity | discriminate | reflexivity].
Defined.

Lemma submissions_carry_edge_bits_witness :
  parse_args argv_ok = Proceed args_ok /\
  Forall (edge_bits_match (algo args_ok))
         (events (main busy_env argv_ok 2 3 world0)).
Proof.
  split; [reflexivity|].
  apply (submissions_carry_edge_bits busy_env argv_ok args_ok 2 3 world0).
  reflexivity.
Defined.

Lemma main_outcomes_witness :
  exiting world0 = false /\
  value (main interrupted_env argv_ok 3 3 world0) = Returned 0 /\
  exists k, (calls world0 <= k
             < calls (after (main interrupted_env argv_ok 3 3 world0)))%nat /\
            env_sigint interrupted_env k = true.
Proof.
  split; [reflexivity|].
  pose proof (main_outcomes interrupted_env argv_ok 3 3 world0 eq_refl) as H.
  cbv zeta in H.
  assert (Hv : value (main interrupted_env argv_ok 3 3 world0) = Returned 0)
    by reflexivity.
  split; [exact Hv|]. rewrite Hv in H.
  destruct H as [(H1 & _) | (_ & _ & H)]; [discriminate H1 | exact H].
Defined.

Lemma idle_polling_paced_witness :
  (forall k, is_valid (env_job idle_env k) = false) /\
  clock world0
  + milliseconds 100
    * Z.of_nat (List.length (jobs_read
        (events (orchestrator idle_env 50 31 (mkTimers 0 0) world0))))
  <= clock (after (orchestrator idle_env 50 31 (mkTimers 0 0) world0)).
Proof.
  split; [intros k; reflexivity|].
  apply (idle_polling_paced idle_env 50 31 (mkTimers 0 0) world0).
  intros k. reflexivity.
Defined.

Lemma reconnects_to_same_node_witness :
  parse_args argv_twice = Proceed (mkArgs "node.example" 3416 "" "x" "C32") /\
  Forall (uses_parameters (mkArgs "node.example" 3416 "" "x" "C32"))
         (events (main dead_env argv_twice 3 3 world0)).
Proof.
  assert (H : parse_args argv_twice
              = Proceed (mkArgs "node.example" 3416 "" "x" "C32"))
    by reflexivity.
  split; [exact H|].
  apply (reconnects_to_same_node dead_env argv_twice _ 3 3 world0 H).
Defined.

(** A node that announces a job with every call: two turns of the inner
    loop, two jobs solved. *)
Example busy_run_submits_twice :
  requests (events (main busy_env argv_ok 1 2 world0)) =
  [Login "alice" "" true;
   Submit 31 (job_of_call 8) 6 [8; 6; 0; 0];
   Submit 31 (job_of_call 17) 15 [17; 15; 0; 0]].
Proof. vm_compute. reflexivity. Qed.
